(** * Mail scheduler service: scheduling engine and delivery pipeline

    A shallow embedding of the JavaScript sources

      - src/modules/email/email.processor.js   (delivery pipeline)
      - src/modules/email/email.service.js     (message store access, update)
      - src/config/sendgrid.js                 (outbound transport wrapper)
      - src/utils/inMemoryScheduler.js         (in-process timer store)
      - src/modules/email/email.queue.js       (scheduling facade, both modes)

    Asynchronous functions are embedded as sequential computations in a
    state-and-exception monad: an [await] is a bind, a rejected promise is a
    thrown error.  Calls of the logger have no effect on the modelled state
    and are left out.  Timestamps are epoch milliseconds, as returned by
    [new Date(x).getTime()] and [Date.now()]; the dates that reach the
    scheduling code are valid ones (the request validators see to it).

    The collaborators that are not part of the repository are modelled by
    what the code asks of them: the table of emails and the transport by
    their state and a script of their failures, the runtime's timers by a
    set of pending timeouts, each due when the delay the runtime armed it
    with elapses (a delay outside 1 .. 2^31 - 1 ms is armed as 1 ms), the
    Redis client by what its connection attempt does, the delayed-job queue
    by its jobs and a script of its failures. *)

From stdpp Require Import gmap strings list fin_maps.
From Stdlib Require Import ZArith Lia.

Local Open Scope string_scope.

(* ===================================================================== *)
(** ** Errors and the state-and-exception monad *)
(* ===================================================================== *)

(** The [Error] objects that travel through the program.  All but the last
    are built by the repository's own [new Error(...)] expressions; [External]
    stands for an error raised by a collaborator (Sequelize, BullMQ,
    ioredis). *)
Inductive JsError : Type :=
| InvalidScheduleTime
| AlreadyCompleted
| InFlight
| EmailNotFound
| EmailAlreadySent
| RedisNotRunning
| RedisConnectionFailed (cause : string)
| External (msg : string).

(** [error.message] *)
Definition message (e : JsError) : string :=
  match e with
  | InvalidScheduleTime => "Scheduled time must be in the future"
  | AlreadyCompleted => "Cannot reschedule a job that has already been completed"
  | InFlight => "Cannot reschedule a job that is currently being processed"
  | EmailNotFound => "Email not found"
  | EmailAlreadySent => "Cannot update email that has already been sent"
  | RedisNotRunning =>
      "Redis is not running. Please start Redis server or set REDIS_ENABLED=false in .env to disable Redis (email scheduling will not work)."
  | RedisConnectionFailed cause =>
      "Redis connection failed: " ++ cause ++
      ". Please ensure Redis is running or set REDIS_ENABLED=false in .env"
  | External msg => msg
  end.

(** [error.statusCode], set by the service on its own two errors. *)
Definition statusCode (e : JsError) : option nat :=
  match e with
  | EmailNotFound => Some 404%nat
  | EmailAlreadySent => Some 400%nat
  | _ => None
  end.

Inductive Result (A : Type) : Type :=
| Ok (a : A)
| Throw (e : JsError).
Arguments Ok {A} a.
Arguments Throw {A} e.

(** A computation over a state [S]: it returns the new state and either a
    value or the error it threw. *)
Definition M (S A : Type) : Type := S -> S * Result A.

Definition ret {S A} (a : A) : M S A := fun s => (s, Ok a).

Definition throw {S A} (e : JsError) : M S A := fun s => (s, Throw e).

Definition bind {S A B} (m : M S A) (k : A -> M S B) : M S B :=
  fun s =>
    match m s with
    | (s', Ok a) => k a s'
    | (s', Throw e) => (s', Throw e)
    end.

(** [try { m } catch (error) { h(error) }] *)
Definition try_catch {S A} (m : M S A) (h : JsError -> M S A) : M S A :=
  fun s =>
    match m s with
    | (s', Ok a) => (s', Ok a)
    | (s', Throw e) => h e s'
    end.

(** [try { m } catch (error) { logger.error(...); throw error; }] *)
Definition rethrow {S A} (m : M S A) : M S A := try_catch m throw.

Definition gets {S A} (f : S -> A) : M S A := fun s => (s, Ok (f s)).

Definition modify {S} (f : S -> S) : M S unit := fun s => (f s, Ok tt).

(** Run a computation on a component [T] of the state [S]. *)
Definition zoom {S T A} (get : S -> T) (set : T -> S -> S) (m : M T A) : M S A :=
  fun s => let (t', r) := m (get s) in (set t' s, r).

Declare Scope js_scope.
Delimit Scope js_scope with js.
Notation "'let*' x ':=' m 'in' k" := (bind m (fun x => k))
  (at level 10, x name, m at level 100, k at level 200) : js_scope.
Local Open Scope js_scope.

(** JavaScript's [a || d] where [a] is a string or [undefined] and [d] a
    string: the empty string and [undefined] are falsy. *)
Definition truthy (a : option string) : bool :=
  match a with
  | Some s => negb (String.eqb s "")
  | None => false
  end.

Definition or_default (a : option string) (d : string) : string :=
  match a with
  | Some s => if String.eqb s "" then d else s
  | None => d
  end.

(* ===================================================================== *)
(** ** The message store and the outbound transport *)
(* ===================================================================== *)

(** utils/constants.js, [EMAIL_STATUS] *)
Inductive EmailStatus : Type := PENDING | SENT | FAILED.

Definition status_eqb (a b : EmailStatus) : bool :=
  match a, b with
  | PENDING, PENDING | SENT, SENT | FAILED, FAILED => true
  | _, _ => false
  end.

(** email.model.js: a row of table [emails]; the primary key [id] is the key
    under which the row is stored. *)
Record Email : Type := mkEmail {
  to : string;
  subject : string;
  body : string;
  scheduledAt : Z;
  status : EmailStatus;
  failureReason : option string;
  jobId : option string
}.

(** The argument of [sgMail.send]. *)
Record Mail : Type := mkMail {
  mail_to : string;
  mail_subject : string;
  mail_body : string
}.

(** What one call of [sgMail.send] does: it resolves, or it rejects with an
    error carrying [error.response?.body?.errors?.[0]?.message] (possibly
    undefined) and [error.message]. *)
Inductive SgOutcome : Type :=
| Delivered
| Refused (response_message : option string) (error_message : string).

(** The collaborators of the delivery pipeline.
    [emails] is the table; [db_faults] scripts the store's availability: each
    call to the store consumes one entry, [Some msg] makes that call throw an
    error of the store with that message,
    [None] or an exhausted script lets it through.  [sg_script] scripts the
    outcomes of [sgMail.send] in the same way (exhausted: delivered), and
    [outbox] records every call made to [sgMail.send]. *)
Record World : Type := mkWorld {
  emails : gmap string Email;
  db_faults : list (option string);
  sg_script : list SgOutcome;
  outbox : list Mail
}.

Definition set_emails (f : gmap string Email -> gmap string Email) (w : World) : World :=
  mkWorld (f (emails w)) (db_faults w) (sg_script w) (outbox w).

Definition set_db_faults (fs : list (option string)) (w : World) : World :=
  mkWorld (emails w) fs (sg_script w) (outbox w).

(** One round trip to the database. *)
Definition db_call : M World unit :=
  fun w =>
    match db_faults w with
    | Some msg :: fs => (set_db_faults fs w, Throw (External msg))
    | None :: fs => (set_db_faults fs w, Ok tt)
    | [] => (w, Ok tt)
    end.

(** [Email.findByPk(id)] *)
Definition findByPk (id : string) : M World (option Email) :=
  let* _ := db_call in gets (fun w => emails w !! id).

(** [email.update(fields)] on the instance loaded under [id]. *)
Definition update (id : string) (fields : Email -> Email) : M World unit :=
  let* _ := db_call in modify (set_emails (alter fields id)).

Definition set_status (st : EmailStatus) (reason : option string) (e : Email) : Email :=
  mkEmail (to e) (subject e) (body e) (scheduledAt e) st reason (jobId e).

(** email.service.js, [getEmailById] *)
Definition getEmailById (id : string) : M World Email :=
  rethrow
    (let* email := findByPk id in
     match email with
     | None => throw EmailNotFound
     | Some email => ret email
     end).

(** email.service.js, [markEmailAsSent] *)
Definition markEmailAsSent (id : string) : M World unit :=
  rethrow
    (let* email := findByPk id in
     match email with
     | Some _ => update id (set_status SENT None)
     | None => ret tt
     end).

(** email.service.js, [markEmailAsFailed] *)
Definition markEmailAsFailed (id : string) (reason : string) : M World unit :=
  rethrow
    (let* email := findByPk id in
     match email with
     | Some _ => update id (set_status FAILED (Some reason))
     | None => ret tt
     end).

(** The object returned by [sendEmail]: [{ success, error }]. *)
Record SendResult : Type := mkSendResult {
  success : bool;
  error : option string
}.

(** config/sendgrid.js: the body of [sendEmail] around [sgMail.send]. *)
Definition send_result (o : SgOutcome) : SendResult :=
  match o with
  | Delivered => mkSendResult true None
  | Refused response_message error_message =>
      mkSendResult false (Some (or_default response_message error_message))
  end.

(** config/sendgrid.js, [sendEmail]: every rejection of [sgMail.send] is
    caught and turned into a result, so this function never throws. *)
Definition sendEmail (m : Mail) : M World SendResult :=
  fun w =>
    match sg_script w with
    | o :: rest =>
        (mkWorld (emails w) (db_faults w) rest (outbox w ++ [m]), Ok (send_result o))
    | [] =>
        (mkWorld (emails w) (db_faults w) [] (outbox w ++ [m]), Ok (send_result Delivered))
    end.

(* ===================================================================== *)
(** ** The delivery pipeline (email.processor.js) *)
(* ===================================================================== *)

(** The [try] block of [processEmail]. *)
Definition processEmail_try (emailId : string) : M World unit :=
  let* email := getEmailById emailId in
  if negb (status_eqb (status email) PENDING) then ret tt
  else
    let* result := sendEmail (mkMail (to email) (subject email) (body email)) in
    if success result then markEmailAsSent emailId
    else
      let failureReason := or_default (error result) "Unknown error" in
      markEmailAsFailed emailId failureReason.

(** The [catch (error)] block of [processEmail]. *)
Definition processEmail_catch (emailId : string) (error : JsError) : M World unit :=
  try_catch (markEmailAsFailed emailId (message error)) (fun _markError => ret tt).

Definition processEmail (emailId : string) : M World unit :=
  try_catch (processEmail_try emailId) (processEmail_catch emailId).

(** The store answers its next [n] calls: none of them throws. *)
Definition answers (n : nat) (w : World) : Prop :=
  Forall (fun f => f = None) (take n (db_faults w)).

(** The world after one answered call: the script moved on, the rest is
    untouched. *)
Definition after_call (w : World) : World :=
  set_db_faults (tail (db_faults w)) w.

(** A message and a world to run the pipeline on. *)
Definition ex_email (st : EmailStatus) : Email :=
  mkEmail "user@example.com" "Hello" "Body text" 60000 st None (Some "A").

Definition ex_world (st : EmailStatus) (faults : list (option string))
    (script : list SgOutcome) : World :=
  mkWorld {[ "A" := ex_email st ]} faults script [].

(* ===================================================================== *)
(** ** The in-process timer store (utils/inMemoryScheduler.js) *)
(* ===================================================================== *)

(** A promise handed back by an [async] callback settles one way or the
    other. *)
Inductive Settlement : Type :=
| Fulfilled
| RejectedWith (e : JsError).

(** The [jobData] object: [{}] by default, [{ emailId }] from the facade. *)
Record JobData : Type := mkJobData { emailId : option string }.

(** A callback is any function of the job data acting on the collaborators:
    it returns normally, perhaps with a promise, or throws.  Like the
    callbacks the facade arms, it does not call back into the timer store
    while it runs; the work of an [async] callback is accounted for at the
    point where it is called. *)
Definition Callback : Type := JobData -> M World (option Settlement).

(** An entry of [this.jobs]. *)
Record Job : Type := mkJob {
  timeout : nat;
  jobData : JobData;
  callback : Callback;
  job_scheduledAt : Z
}.

(** A timeout pending in the runtime: the arrow function that [schedule]
    passes to [setTimeout], with the variables it captures, and the instant
    at which its delay elapses. *)
Record Timer : Type := mkTimer {
  due : Z;
  timer_jobId : string;
  timer_callback : Callback;
  timer_jobData : JobData
}.

(** The singleton [InMemoryScheduler] with the runtime it lives in:
    [jobs] is [this.jobs]; [now] is the clock read by [Date.now()]; [timers]
    are the timeouts armed by [setTimeout] and not yet elapsed or cleared,
    keyed by their handle; [next_timer] is the next fresh handle;
    [unhandled] collects the rejections of promises that nobody awaits. *)
Record TimerStore : Type := mkTimerStore {
  jobs : gmap string Job;
  now : Z;
  timers : gmap nat Timer;
  next_timer : nat;
  unhandled : list JsError
}.

Definition set_jobs (f : gmap string Job -> gmap string Job) (s : TimerStore) : TimerStore :=
  mkTimerStore (f (jobs s)) (now s) (timers s) (next_timer s) (unhandled s).

(** [new InMemoryScheduler()] at time [t0]. *)
Definition new_scheduler (t0 : Z) : TimerStore := mkTimerStore ∅ t0 ∅ 0 [].

(** The longest delay the timers of the runtime take, in milliseconds:
    2^31 - 1, some 24.8 days. *)
Definition TIMEOUT_MAX : Z := 2147483647.

(** The delay a timeout is armed with: the runtime sets a delay that is not
    between 1 and [TIMEOUT_MAX] to 1. *)
Definition timer_delay (delay : Z) : Z :=
  if ((1 <=? delay) && (delay <=? TIMEOUT_MAX))%Z then delay else 1%Z.

(** [setTimeout(f, delay)] *)
Definition setTimeout (f : Z -> Timer) (delay : Z) : M TimerStore nat :=
  fun s =>
    let h := next_timer s in
    (mkTimerStore (jobs s) (now s)
                  (<[h := f (now s + timer_delay delay)%Z]> (timers s))
                  (S h) (unhandled s),
     Ok h).

(** The instant at which a timeout armed at [now] for [scheduledAt] elapses. *)
Definition elapses_at (now scheduledAt : Z) : Z :=
  (now + timer_delay (scheduledAt - now))%Z.

(** [clearTimeout(h)] *)
Definition clearTimeout (h : nat) : M TimerStore unit :=
  modify (fun s =>
    mkTimerStore (jobs s) (now s) (delete h (timers s)) (next_timer s) (unhandled s)).

(** [cancel(jobId)] *)
Definition cancel (jid : string) : M TimerStore bool :=
  let* job := gets (fun s => jobs s !! jid) in
  match job with
  | Some job =>
      let* _ := clearTimeout (timeout job) in
      let* _ := modify (set_jobs (delete jid)) in
      ret true
  | None => ret false
  end.

(** [schedule(jobId, scheduledAt, callback, jobData)] *)
Definition schedule (jid : string) (scheduledAt : Z) (callback : Callback)
    (jobData : JobData) : M TimerStore string :=
  let* _ := cancel jid in
  let scheduledTime := scheduledAt in
  let* now := gets now in
  let delay := (scheduledTime - now)%Z in
  if (delay <=? 0)%Z then throw InvalidScheduleTime
  else
    let* timeout := setTimeout (fun due => mkTimer due jid callback jobData) delay in
    let* _ := modify (set_jobs (<[jid := mkJob timeout jobData callback scheduledAt]>)) in
    ret jid.

(** [reschedule(jobId, newScheduledAt, callback, jobData)] *)
Definition reschedule (jid : string) (newScheduledAt : Z) (callback : Callback)
    (jobData : JobData) : M TimerStore string :=
  let* _ := cancel jid in
  schedule jid newScheduledAt callback jobData.

(** [getJobs()]; the order of the entries is not modelled. *)
Definition getJobs (s : TimerStore) : list (string * Z * JobData) :=
  (fun e => (e.1, job_scheduledAt e.2, jobData e.2)) <$> map_to_list (jobs s).

(** [clear()] *)
Definition clear : M TimerStore unit :=
  modify (fun s =>
    mkTimerStore ∅ (now s)
      (map_fold (fun _ job ts => delete (timeout job) ts) (timers s) (jobs s))
      (next_timer s) (unhandled s)).

(** [size()] *)
Definition size_jobs (s : TimerStore) : nat := size (jobs s).

(** The runtime around a timeout that elapses.  A promise returned by the
    callback is dropped by the arrow function; should it reject, the
    rejection is unhandled. *)
Definition drop_promise (p : option Settlement) : M (TimerStore * World) unit :=
  match p with
  | Some (RejectedWith e) =>
      modify (fun sw =>
        (mkTimerStore (jobs sw.1) (now sw.1) (timers sw.1) (next_timer sw.1)
                      (unhandled sw.1 ++ [e]), sw.2))
  | _ => ret tt
  end.

(** The arrow function armed by [schedule]:
    [try { callback(jobData) } catch (error) { log }; this.jobs.delete(jobId)] *)
Definition on_timeout (t : Timer) : M (TimerStore * World) unit :=
  let* _ :=
    try_catch
      (let* p := zoom snd (fun w sw => (sw.1, w)) (timer_callback t (timer_jobData t)) in
       drop_promise p)
      (fun _error => ret tt) in
  zoom fst (fun s sw => (s, sw.2)) (modify (set_jobs (delete (timer_jobId t)))).

(** The runtime fires the pending timeout [h] once its delay has elapsed: the
    timeout leaves the pending set and its arrow function runs. *)
Definition fire (h : nat) : M (TimerStore * World) unit :=
  fun sw =>
    match timers sw.1 !! h with
    | Some t =>
        if (due t <=? now sw.1)%Z
        then on_timeout t ((clearTimeout h sw.1).1, sw.2)
        else (sw, Ok tt)
    | None => (sw, Ok tt)
    end.

(** Time passes. *)
Definition advance (dt : Z) (s : TimerStore) : TimerStore :=
  mkTimerStore (jobs s) (now s + Z.max 0 dt)%Z (timers s) (next_timer s) (unhandled s).

(** An [async] function: it never throws, it returns a promise that settles
    as the body completes. *)
Definition async {A} (m : M World A) : M World (option Settlement) :=
  fun w =>
    match m w with
    | (w', Ok _) => (w', Ok (Some Fulfilled))
    | (w', Throw e) => (w', Ok (Some (RejectedWith e)))
    end.

(** The callback the facade arms: [async () => { await processEmail(id); }] *)
Definition processEmail_callback (id : string) : Callback :=
  fun _jobData => async (processEmail id).

(** *** The timer store as a transition system *)

(** The timeout [h] is armed for the job id [jid]. *)
Definition armed (s : TimerStore) (jid : string) (h : nat) : Prop :=
  exists t, timers s !! h = Some t /\ timer_jobId t = jid.

(** At most one armed timeout per job id. *)
Definition at_most_one_timer (s : TimerStore) : Prop :=
  forall jid h1 h2, armed s jid h1 -> armed s jid h2 -> h1 = h2.

(** [this.jobs] and the runtime's pending timeouts describe each other: the
    entry of a job id holds the handle of a pending timeout armed for that
    id and due no later than the entry's [scheduledAt] (at that time, unless
    the delay was above [TIMEOUT_MAX]); every pending timeout is the one held
    by the entry of its job id; handles are never reused. *)
Definition coherent (s : TimerStore) : Prop :=
  (forall jid job,
      jobs s !! jid = Some job ->
      exists t, timers s !! timeout job = Some t
                /\ timer_jobId t = jid /\ (due t <= job_scheduledAt job)%Z)
  /\ (forall h t,
        timers s !! h = Some t ->
        exists job, jobs s !! timer_jobId t = Some job /\ timeout job = h)
  /\ (forall h t, timers s !! h = Some t -> (h < next_timer s)%nat).

(** One step of the process around the timer store: a call of one of its
    methods, a timeout that elapses, time passing, or the collaborators
    moving on their own. *)
Inductive step : TimerStore * World -> TimerStore * World -> Prop :=
| step_schedule jid scheduledAt cb data s w :
    step (s, w) ((schedule jid scheduledAt cb data s).1, w)
| step_cancel jid s w :
    step (s, w) ((cancel jid s).1, w)
| step_reschedule jid newScheduledAt cb data s w :
    step (s, w) ((reschedule jid newScheduledAt cb data s).1, w)
| step_clear s w :
    step (s, w) ((clear s).1, w)
| step_fire h sw :
    step sw (fire h sw).1
| step_advance dt s w :
    step (s, w) (advance dt s, w)
| step_world s w w' :
    step (s, w) (s, w').

Inductive reachable : TimerStore * World -> Prop :=
| reachable_new t0 w : reachable (new_scheduler t0, w)
| reachable_step sw sw' : reachable sw -> step sw sw' -> reachable sw'.

(** The handle [h] is spent: it was handed out and is not pending. *)
Definition dead (h : nat) (s : TimerStore) : Prop :=
  timers s !! h = None /\ (h < next_timer s)%nat.

(** A callback that throws, and a store on which job "A" was scheduled
    twice. *)
Definition ex_throwing_callback : Callback :=
  fun _ => throw (External "callback failed").

Definition ex_store_A : TimerStore :=
  (schedule "A" 5000 ex_throwing_callback (mkJobData None)
     (schedule "A" 9000 (processEmail_callback "A") (mkJobData (Some "A"))
        (new_scheduler 1000)).1).1.

(* ===================================================================== *)
(** ** The durable delayed-job queue (BullMQ over Redis) *)
(* ===================================================================== *)

(** The queue is an external collaborator; it is modelled after its interface
    as the adapter uses it: add-with-delay under an explicit id, get-job,
    [job.remove()] and [job.getState()].  Any call may fail with an error of
    the backend. *)
Inductive JobState : Type :=
| waiting | delayed | active | completed | failed | unknown.

Record QJob : Type := mkQJob {
  job_name : string;
  job_emailId : string;
  job_delay : Z;
  job_state : JobState
}.

(** The Redis client as [getRedisClient] finds it: its status is 'ready', or
    its [connect()] resolves ([ConnReady]); its status is 'connecting', so
    that no connection is attempted ([ConnConnecting]); or its [connect()]
    rejects with an error that has the given [code], if any, and message
    ([ConnRejects]). *)
Inductive RedisConn : Type :=
| ConnReady
| ConnConnecting
| ConnRejects (code : option string) (msg : string).

(** Nothing listens on the port: the client gives up and rejects
    [connect()] with 'Connection is closed.', an error without a code. *)
Definition ConnRefused : RedisConn := ConnRejects None "Connection is closed.".

Record Redis : Type := mkRedis {
  conn : RedisConn;
  queue_jobs : gmap string QJob;
  queue_faults : list (option string)
}.

Definition set_queue_jobs (f : gmap string QJob -> gmap string QJob) (r : Redis) : Redis :=
  mkRedis (conn r) (f (queue_jobs r)) (queue_faults r).

(** One round trip to the queue's backend. *)
Definition redis_call : M Redis unit :=
  fun r =>
    match queue_faults r with
    | Some msg :: fs => (mkRedis (conn r) (queue_jobs r) fs, Throw (External msg))
    | None :: fs => (mkRedis (conn r) (queue_jobs r) fs, Ok tt)
    | [] => (r, Ok tt)
    end.

(** [queue.add(name, { emailId }, { delay, jobId })], returning [job.id].
    An add under an id that is already in the queue is ignored by the queue
    and answers with that id. *)
Definition queue_add (name emailId : string) (delay : Z) (jid : string) : M Redis string :=
  let* _ := redis_call in
  let* existing := gets (fun r => queue_jobs r !! jid) in
  match existing with
  | Some _ => ret jid
  | None =>
      let* _ := modify (set_queue_jobs (<[jid := mkQJob name emailId delay delayed]>)) in
      ret jid
  end.

(** [queue.getJob(jobId)] *)
Definition queue_getJob (jid : string) : M Redis (option QJob) :=
  let* _ := redis_call in
  gets (fun r => queue_jobs r !! jid).

(** [job.remove()] on the job fetched under [jid] *)
Definition job_remove (jid : string) : M Redis unit :=
  let* _ := redis_call in
  modify (set_queue_jobs (delete jid)).

(** [job.getState()] on the job fetched under [jid] *)
Definition job_getState (jid : string) : M Redis JobState :=
  let* _ := redis_call in
  gets (fun r => match queue_jobs r !! jid with
                 | Some j => job_state j
                 | None => unknown
                 end).

(** config/redis.js, [getRedisClient] *)
Definition getRedisClient : M Redis unit :=
  let* c := gets conn in
  match c with
  | ConnReady => ret tt
  | ConnConnecting => ret tt
  | ConnRejects code msg =>
      if bool_decide (code = Some "ECONNREFUSED") then throw RedisNotRunning
      else throw (External msg)
  end.

(** The queue's backend answers its next [n] calls. *)
Definition queue_answers (n : nat) (r : Redis) : Prop :=
  Forall (fun f => f = None) (take n (queue_faults r)).

Definition after_queue_call (r : Redis) : Redis :=
  mkRedis (conn r) (queue_jobs r) (tail (queue_faults r)).

(* ===================================================================== *)
(** ** The scheduling facade (email.queue.js) *)
(* ===================================================================== *)

(** The facade functions, as a record of who was called with what. *)
Inductive FacadeCall : Type :=
| CallAddEmailJob (emailId : string) (scheduledAt : Z)
| CallRemoveEmailJob (jobId : string)
| CallRescheduleEmailJob (jobId : string) (newScheduledAt : Z).

(** The process: [redis_enabled] is [config.redis.enabled]; [emailQueue] is
    the module variable of email.queue.js ([false] for [null]); [calls] is a
    ghost trace of the facade functions entered, oldest first. *)
Record App : Type := mkApp {
  redis_enabled : bool;
  emailQueue : bool;
  scheduler : TimerStore;
  redis : Redis;
  world : World;
  calls : list FacadeCall
}.

Definition set_scheduler (s : TimerStore) (a : App) : App :=
  mkApp (redis_enabled a) (emailQueue a) s (redis a) (world a) (calls a).

Definition set_redis (r : Redis) (a : App) : App :=
  mkApp (redis_enabled a) (emailQueue a) (scheduler a) r (world a) (calls a).

Definition set_world (w : World) (a : App) : App :=
  mkApp (redis_enabled a) (emailQueue a) (scheduler a) (redis a) w (calls a).

Definition on_scheduler {A} : M TimerStore A -> M App A := zoom scheduler set_scheduler.

Definition on_redis {A} : M Redis A -> M App A := zoom redis set_redis.

Definition on_world {A} : M World A -> M App A := zoom world set_world.

Definition set_emailQueue (q : bool) (a : App) : App :=
  mkApp (redis_enabled a) q (scheduler a) (redis a) (world a) (calls a).

Definition record_call (c : FacadeCall) (a : App) : App :=
  mkApp (redis_enabled a) (emailQueue a) (scheduler a) (redis a) (world a)
        (calls a ++ [c]).

Definition enter (c : FacadeCall) : M App unit := modify (record_call c).

(** [Date.now()] *)
Definition Date_now : M App Z := gets (fun a => now (scheduler a)).

(** [getEmailQueue]: [false] is the [null] of the in-memory mode. *)
Definition getEmailQueue : M App bool :=
  let* enabled := gets redis_enabled in
  if negb enabled then ret false
  else
    let* q := gets emailQueue in
    let* _ :=
      if negb q then
        try_catch
          (let* _ := on_redis getRedisClient in
           modify (set_emailQueue true))
          (fun error => throw (RedisConnectionFailed (message error)))
      else ret tt in
    gets emailQueue.

(** [addEmailJob(emailId, scheduledAt)] *)
Definition addEmailJob (id : string) (scheduledAt : Z) : M App string :=
  let* _ := enter (CallAddEmailJob id scheduledAt) in
  rethrow
    (let* enabled := gets redis_enabled in
     if negb enabled then
       let* _ := on_scheduler
                   (schedule id scheduledAt (processEmail_callback id)
                             (mkJobData (Some id))) in
       ret id
     else
       let* _queue := getEmailQueue in
       let* now := Date_now in
       let delay := (scheduledAt - now)%Z in
       if (delay <=? 0)%Z then throw InvalidScheduleTime
       else on_redis (queue_add "send-email" id delay id)).

(** [removeEmailJob(jobId)] *)
Definition removeEmailJob (jid : string) : M App unit :=
  let* _ := enter (CallRemoveEmailJob jid) in
  try_catch
    (let* enabled := gets redis_enabled in
     if negb enabled then
       let* _ := on_scheduler (cancel jid) in
       ret tt
     else
       let* q := gets emailQueue in
       if q then
         let* job := on_redis (queue_getJob jid) in
         match job with
         | Some _ => on_redis (job_remove jid)
         | None => ret tt
         end
       else ret tt)
    (fun _error => ret tt).

(** [rescheduleEmailJob(jobId, newScheduledAt)] *)
Definition rescheduleEmailJob (jid : string) (newScheduledAt : Z) : M App string :=
  let* _ := enter (CallRescheduleEmailJob jid newScheduledAt) in
  rethrow
    (let* enabled := gets redis_enabled in
     if negb enabled then
       let* _ := on_scheduler
                   (reschedule jid newScheduledAt (processEmail_callback jid)
                               (mkJobData (Some jid))) in
       ret jid
     else
       let* _queue := getEmailQueue in
       let* now := Date_now in
       let newDelay := (newScheduledAt - now)%Z in
       if (newDelay <=? 0)%Z then throw InvalidScheduleTime
       else
         let* existingJob := on_redis (queue_getJob jid) in
         match existingJob with
         | None => on_redis (queue_add "send-email" jid newDelay jid)
         | Some _ =>
             let* state := on_redis (job_getState jid) in
             match state with
             | completed => throw AlreadyCompleted
             | active => throw InFlight
             | _ =>
                 let* _ := on_redis (job_remove jid) in
                 on_redis (queue_add "send-email" jid newDelay jid)
             end
         end).

(** The queue can be had: it was created before, or the connection attempt
    succeeds. *)
Definition queue_available (a : App) : Prop :=
  emailQueue a = true \/ conn (redis a) = ConnReady.

(** A process in distributed mode whose queue holds job "A", delayed. *)
Definition ex_queue_job (delay : Z) (st : JobState) : QJob :=
  mkQJob "send-email" "A" delay st.

Definition ex_app_distributed (st : JobState) : App :=
  mkApp true true (new_scheduler 1000)
        (mkRedis ConnReady {[ "A" := ex_queue_job 4000 st ]} [])
        (ex_world PENDING [] []) [].

(** A process in in-memory mode on which email "A" was scheduled. *)
Definition ex_app_in_memory : App :=
  (addEmailJob "A" 5000
     (mkApp false false (new_scheduler 1000) (mkRedis ConnRefused ∅ [])
            (ex_world PENDING [] []) [])).1.

(* ===================================================================== *)
(** ** The service layer: updating an email (email.service.js) *)
(* ===================================================================== *)

(** The validated body of an update request, plus the [jobId] the service
    writes into it. *)
Record UpdateData : Type := mkUpdateData {
  upd_to : option string;
  upd_subject : option string;
  upd_body : option string;
  upd_scheduledAt : option Z;
  upd_jobId : option string
}.

Definition set_upd_jobId (j : string) (u : UpdateData) : UpdateData :=
  mkUpdateData (upd_to u) (upd_subject u) (upd_body u) (upd_scheduledAt u) (Some j).

(** The fields that [email.update(updateData)] writes. *)
Definition apply_update (u : UpdateData) (e : Email) : Email :=
  mkEmail (default (to e) (upd_to u))
          (default (subject e) (upd_subject u))
          (default (body e) (upd_body u))
          (default (scheduledAt e) (upd_scheduledAt u))
          (status e)
          (failureReason e)
          (match upd_jobId u with Some j => Some j | None => jobId e end).

(** [updateEmail(id, updateData)].  [updateData.scheduledAt] is a [Date]
    built from the request and [email.scheduledAt] a [Date] loaded from the
    table: two distinct objects, so that the test
    [updateData.scheduledAt !== email.scheduledAt] holds whenever the update
    carries a [scheduledAt]. *)
Definition updateEmail (id : string) (updateData : UpdateData) : M App Email :=
  rethrow
    (let* email := on_world (findByPk id) in
     match email with
     | None => throw EmailNotFound
     | Some email =>
         if status_eqb (status email) SENT then throw EmailAlreadySent
         else
           let* updateData :=
             match upd_scheduledAt updateData with
             | Some scheduledAt =>
                 let* _ :=
                   if truthy (jobId email)
                   then removeEmailJob (default "" (jobId email))
                   else ret tt in
                 let* newJobId := addEmailJob id scheduledAt in
                 ret (set_upd_jobId newJobId updateData)
             | None => ret updateData
             end in
           let* _ := on_world (update id (apply_update updateData)) in
           ret (apply_update updateData email)
     end).

(** *** Vocabulary for the service layer *)

(** Every error that [m] can throw satisfies [P]. *)
Definition throws_only {S A} (P : JsError -> Prop) (m : M S A) : Prop :=
  forall s s' e, m s = (s', Throw e) -> P e.

(** The errors of a reschedule that meets a completed or an active job. *)
Definition state_conflict (e : JsError) : Prop :=
  e = AlreadyCompleted \/ e = InFlight.

Definition calm (e : JsError) : Prop := ~ state_conflict e.

(** [m] enters no facade function. *)
Definition keeps_calls {A} (m : M App A) : Prop :=
  forall a, calls (m a).1 = calls a.

(** A process in in-memory mode whose table holds email "A", pending, with a
    null [jobId]: what [createEmail] leaves behind when [addEmailJob] threw
    after the row was created. *)
Definition ex_app_no_jobId : App :=
  mkApp false false (new_scheduler 1000) (mkRedis ConnRefused ∅ [])
        (mkWorld {[ "A" := mkEmail "user@example.com" "Hello" "Body text" 60000
                                   PENDING None None ]} [] [] [])
        [].

(** The same process after [createEmail] went through: the row carries its
    [jobId] and the timer store holds the job. *)
Definition ex_app_with_jobId : App :=
  (addEmailJob "A" 60000
     (mkApp false false (new_scheduler 1000) (mkRedis ConnRefused ∅ [])
            (ex_world PENDING [] []) [])).1.

Definition ex_update : UpdateData :=
  mkUpdateData None (Some "Updated subject") None (Some 90000%Z) None.

(* ===================================================================== *)
(** ** The rest of the service layer (email.service.js) *)
(* ===================================================================== *)

(** The validated body of a create request. *)
Record EmailData : Type := mkEmailData {
  new_to : string;
  new_subject : string;
  new_body : string;
  new_scheduledAt : Z
}.

(** [Email.create(emailData)]: the row is inserted under the UUID [id] that
    the model draws for it, with the defaults of email.model.js (status
    PENDING, null failure reason, null job id).  A primary key that is
    already taken is refused by the table. *)
Definition new_email (emailData : EmailData) : Email :=
  mkEmail (new_to emailData) (new_subject emailData) (new_body emailData)
          (new_scheduledAt emailData) PENDING None None.

Definition create (id : string) (emailData : EmailData) : M World Email :=
  let* _ := db_call in
  let* taken := gets (fun w => emails w !! id) in
  match taken with
  | Some _ => throw (External "Validation error")
  | None =>
      let email := new_email emailData in
      let* _ := modify (set_emails (<[id := email]>)) in
      ret email
  end.

(** [email.destroy()] on the instance loaded under [id]. *)
Definition destroy (id : string) : M World unit :=
  let* _ := db_call in
  modify (set_emails (delete id)).

Definition set_jobId (j : string) (e : Email) : Email :=
  mkEmail (to e) (subject e) (body e) (scheduledAt e) (status e) (failureReason e)
          (Some j).

(** [createEmail(emailData)]; [id] is the UUID drawn by [Email.create]. *)
Definition createEmail (id : string) (emailData : EmailData) : M App Email :=
  rethrow
    (let* email := on_world (create id emailData) in
     let* jobId := addEmailJob id (scheduledAt email) in
     let* _ := on_world (update id (set_jobId jobId)) in
     ret (set_jobId jobId email)).

(** [deleteEmail(id)] *)
Definition deleteEmail (id : string) : M App bool :=
  rethrow
    (let* email := on_world (findByPk id) in
     match email with
     | None => throw EmailNotFound
     | Some email =>
         let* _ :=
           if truthy (jobId email)
           then removeEmailJob (default "" (jobId email))
           else ret tt in
         let* _ := on_world (destroy id) in
         ret true
     end).

(** utils/constants.js, [PAGINATION] *)
Definition DEFAULT_PAGE : Z := 1.
Definition DEFAULT_LIMIT : Z := 10.
Definition MAX_LIMIT : Z := 100.

(** The [pagination] object of a listing; [pg_totalPages] is [None] when
    [Math.ceil(count / actualLimit)] is not a finite number. *)
Record Pagination : Type := mkPagination {
  pg_page : Z;
  pg_limit : Z;
  pg_total : Z;
  pg_totalPages : option Z
}.

(** [Math.ceil(a / b)] on integers. *)
Definition ceil_div (a b : Z) : option Z :=
  if (b =? 0)%Z then None else Some (- ((- a) / b))%Z.

(** [Email.findAndCountAll({ where, limit, offset, order })].  The table of
    the model carries no creation time: [newest_first] stands for the
    enumeration of its rows by [createdAt], descending.  The database
    refuses a negative limit or offset. *)
Definition findAndCountAll (newest_first : gmap string Email -> list (string * Email))
    (where_ : Email -> bool) (limit offset : Z)
    : M World (Z * list (string * Email)) :=
  let* _ := db_call in
  if ((limit <? 0) || (offset <? 0))%Z then throw (External "SequelizeDatabaseError")
  else
    let* matching :=
      gets (fun w => List.filter (fun r => where_ r.2) (newest_first (emails w))) in
    ret (Z.of_nat (length matching),
         take (Z.to_nat limit) (drop (Z.to_nat offset) matching)).

(** The body shared by [getAllEmails] and [getFailedEmails]. *)
Definition listEmails (newest_first : gmap string Email -> list (string * Email))
    (where_ : Email -> bool) (page limit : Z)
    : M World (list (string * Email) * Pagination) :=
  rethrow
    (let offset := ((page - 1) * limit)%Z in
     let actualLimit := Z.min limit MAX_LIMIT in
     let* found := findAndCountAll newest_first where_ actualLimit offset in
     ret (found.2, mkPagination page actualLimit found.1 (ceil_div found.1 actualLimit))).

(** [getAllEmails(page, limit)] *)
Definition getAllEmails newest_first (page limit : Z) :=
  listEmails newest_first (fun _ => true) page limit.

(** [getFailedEmails(page, limit)] *)
Definition getFailedEmails newest_first (page limit : Z) :=
  listEmails newest_first (fun e => status_eqb (status e) FAILED) page limit.

(* ===================================================================== *)
(** ** Controllers, error middleware, validators, worker *)
(* ===================================================================== *)

(** [parseInt(x) || d]: [None] is the [NaN] of a missing or malformed query
    parameter; [NaN] and [0] are falsy. *)
Definition parseInt_or (x : option Z) (d : Z) : Z :=
  match x with
  | Some n => if (n =? 0)%Z then d else n
  | None => d
  end.

(** What a controller does with the request: it answers through
    [successResponse] with a status and a message, or hands the error to
    [next]. *)
Inductive Reply : Type :=
| Success (code : nat) (msg : string)
| Next (e : JsError).

Definition controller {S A} (code : nat) (msg : string) (service : M S A) : S -> S * Reply :=
  fun s =>
    match service s with
    | (s', Ok _) => (s', Success code msg)
    | (s', Throw e) => (s', Next e)
    end.

(** email.controller.js *)
Definition getEmailById_controller (id : string) :=
  controller 200 "Email retrieved successfully" (getEmailById id).

Definition getAllEmails_controller newest_first (page limit : option Z) :=
  controller 200 "Emails retrieved successfully"
    (getAllEmails newest_first (parseInt_or page 1) (parseInt_or limit 10)).

Definition getFailedEmails_controller newest_first (page limit : option Z) :=
  controller 200 "Failed emails retrieved successfully"
    (getFailedEmails newest_first (parseInt_or page 1) (parseInt_or limit 10)).

Definition createEmail_controller (id : string) (validatedData : EmailData) :=
  controller 201 "Email scheduled successfully" (createEmail id validatedData).

Definition updateEmail_controller (id : string) (validatedData : UpdateData) :=
  controller 200 "Email updated successfully" (updateEmail id validatedData).

Definition deleteEmail_controller (id : string) :=
  controller 200 "Email deleted successfully" (deleteEmail id).

(** error.middleware.js: the status and the message handed to
    [errorResponse], given [err.name]. *)
Definition errorMiddleware (name : string) (err : JsError) : nat * string :=
  if String.eqb name "ValidationError" then (400%nat, "Validation error")
  else if String.eqb name "SequelizeValidationError" then (400%nat, "Validation error")
  else if String.eqb name "SequelizeUniqueConstraintError"
  then (409%nat, "Resource already exists")
  else if String.eqb name "SequelizeDatabaseError" then (500%nat, "Database error")
  else
    (match statusCode err with
     | Some c => if Nat.eqb c 0 then 500%nat else c
     | None => 500%nat
     end,
     or_default (Some (message err)) "Internal server error").

(** The [name] of an error built by [new Error(...)]. *)
Definition Error_name : string := "Error".

(** [err.name]: the errors of the service, of the facade and of
    [getRedisClient] are built by [new Error(...)]; an error of a
    collaborator carries the name its library gave it, which is not
    modelled. *)
Definition error_name (e : JsError) : option string :=
  match e with
  | External _ => None
  | _ => Some Error_name
  end.

(** What the client receives: the controller's own answer, or, for an error
    handed to [next], the answer of the error middleware; [None] when that
    answer depends on the name of a collaborator's error. *)
Definition http_response (r : Reply) : option (nat * string) :=
  match r with
  | Success code msg => Some (code, msg)
  | Next e =>
      match error_name e with
      | Some name => Some (errorMiddleware name e)
      | None => None
      end
  end.

(** email.validator.js: the custom rule on [scheduledAt], checked at the
    instant [now]. *)
Definition scheduledAt_rule (now value : Z) : Z + string :=
  if (value <=? now)%Z then inr "Scheduled date must be in the future"
  else inl value.

(** email.worker.js: the processor handed to the BullMQ [Worker]; it answers
    [{ success: true, emailId }]. *)
Definition worker_processor (emailId : string) : M World (bool * string) :=
  rethrow
    (let* _ := processEmail emailId in
     ret (true, emailId)).

(** A request to schedule a second email, "B". *)
Definition ex_email_data (scheduledAt : Z) : EmailData :=
  mkEmailData "other@example.com" "Second" "Another body" scheduledAt.

(** A process in distributed mode that has not created its queue yet, as
    after a restart: the backend still holds job "A". *)
Definition ex_app_restarted : App :=
  mkApp true false (new_scheduler 1000)
        (mkRedis ConnReady {[ "A" := ex_queue_job 4000 delayed ]} [])
        (ex_world PENDING [] []) [].

(** A process in distributed mode whose Redis server is not running. *)
Definition ex_app_redis_down : App :=
  mkApp true false (new_scheduler 1000) (mkRedis ConnRefused ∅ [])
        (ex_world PENDING [] []) [].

(** The rows a listing is about: those of the enumeration that satisfy the
    [where] clause. *)
Definition matching (newest_first : gmap string Email -> list (string * Email))
    (where_ : Email -> bool) (w : World) : list (string * Email) :=
  List.filter (fun r => where_ r.2) (newest_first (emails w)).

(** A table of 150 pending emails and an enumeration of it. *)
Definition ex_big_table : gmap string Email :=
  list_to_map (map (fun n => (String (Ascii.ascii_of_nat n) "", ex_email PENDING))
                   (seq 0 150)).

Definition ex_big_world : World := mkWorld ex_big_table [] [] [].

Definition ex_newest_first (m : gmap string Email) : list (string * Email) :=
  map_to_list m.

(* ===================================================================== *)
(** ** Properties of the delivery pipeline *)
(* ===================================================================== *)

Section Pipeline.

Lemma answers_weaken n m w : (m <= n)%nat -> answers n w -> answers m w.
Proof.
  unfold answers. intros Hle H.
  rewrite <- (Nat.min_l m n) by exact Hle.
  rewrite <- take_take. by apply Forall_take.
Qed.

Lemma answers_nil n w : db_faults w = [] -> answers n w.
Proof. unfold answers. intros ->. rewrite take_nil. constructor. Qed.

Lemma db_call_answers n w :
  answers (S n) w -> db_call w = (after_call w, Ok tt) /\ answers n (after_call w).
Proof.
  unfold answers, db_call, after_call. destruct w as [em fs sg ob]; simpl.
  destruct fs as [|[e|] fs]; simpl; intros H.
  - split; [done|]. rewrite take_nil. constructor.
  - inversion H; discriminate.
  - inversion H; subst. done.
Qed.

Lemma answers_set_emails n f w : answers n w -> answers n (set_emails f w).
Proof. done. Qed.

Lemma findByPk_answers n id w :
  answers (S n) w ->
  findByPk id w = (after_call w, Ok (emails w !! id)) /\ answers n (after_call w).
Proof.
  intros H. destruct (db_call_answers n w H) as [Hc Ha].
  unfold findByPk, bind, gets. rewrite Hc. done.
Qed.

Lemma update_answers n id f w :
  answers (S n) w ->
  update id f w = (set_emails (alter f id) (after_call w), Ok tt)
  /\ answers n (set_emails (alter f id) (after_call w)).
Proof.
  intros H. destruct (db_call_answers n w H) as [Hc Ha].
  unfold update, bind, modify. rewrite Hc. done.
Qed.

Lemma getEmailById_found n id e w :
  answers (S n) w -> emails w !! id = Some e ->
  getEmailById id w = (after_call w, Ok e).
Proof.
  intros H He. destruct (findByPk_answers n id w H) as [Hf _].
  unfold getEmailById, rethrow, try_catch, bind. rewrite Hf, He. done.
Qed.

Lemma getEmailById_missing n id w :
  answers (S n) w -> emails w !! id = None ->
  getEmailById id w = (after_call w, Throw EmailNotFound).
Proof.
  intros H He. destruct (findByPk_answers n id w H) as [Hf _].
  unfold getEmailById, rethrow, try_catch, bind. rewrite Hf, He. done.
Qed.

(** Marking, on a store that answers the two calls it takes. *)
Lemma mark_answers n id st reason w :
  answers (S (S n)) w ->
  let mark := rethrow
    (let* email := findByPk id in
     match email with
     | Some _ => update id (set_status st reason)
     | None => ret tt
     end) in
  exists w',
    mark w = (w', Ok tt) /\ answers n w'
    /\ emails w' = alter (set_status st reason) id (emails w)
    /\ outbox w' = outbox w /\ sg_script w' = sg_script w.
Proof.
  intros H mark. subst mark.
  destruct (findByPk_answers (S n) id w H) as [Hf Ha].
  unfold rethrow, try_catch, bind at 1. rewrite Hf.
  destruct (emails w !! id) as [e|] eqn:He.
  - destruct (update_answers n id (set_status st reason) _ Ha) as [Hu Hb].
    rewrite Hu. eexists; split; [done|]. split; [exact Hb|]. done.
  - eexists; split; [done|]. split.
    + eapply answers_weaken; [|exact Ha]. lia.
    + split; [|done]. simpl. apply map_eq; intros k.
      rewrite lookup_alter. case_decide; subst; [by rewrite He|done].
Qed.

Lemma markEmailAsSent_answers n id w :
  answers (S (S n)) w ->
  exists w',
    markEmailAsSent id w = (w', Ok tt) /\ answers n w'
    /\ emails w' = alter (set_status SENT None) id (emails w)
    /\ outbox w' = outbox w /\ sg_script w' = sg_script w.
Proof. apply mark_answers. Qed.

Lemma markEmailAsFailed_answers n id reason w :
  answers (S (S n)) w ->
  exists w',
    markEmailAsFailed id reason w = (w', Ok tt) /\ answers n w'
    /\ emails w' = alter (set_status FAILED (Some reason)) id (emails w)
    /\ outbox w' = outbox w /\ sg_script w' = sg_script w.
Proof. apply mark_answers. Qed.

(** [sendEmail] resolves whatever the transport does, and touches neither
    the table nor the store's script. *)
Lemma sendEmail_resolves m w :
  exists w' r,
    sendEmail m w = (w', Ok r)
    /\ r = send_result (default Delivered (head (sg_script w)))
    /\ emails w' = emails w /\ db_faults w' = db_faults w
    /\ outbox w' = (outbox w ++ [m])%list.
Proof.
  unfold sendEmail. destruct (sg_script w) as [|o rest]; simpl; eauto 10.
Qed.

(** The guard: once the load has returned a message that is not pending,
    nothing else happens. *)
Lemma processEmail_guard id w w1 e :
  getEmailById id w = (w1, Ok e) -> status e <> PENDING ->
  processEmail id w = (w1, Ok tt).
Proof.
  intros Hload Hst.
  unfold processEmail, try_catch, processEmail_try, bind. rewrite Hload.
  destruct (status e); simpl; congruence.
Qed.

(** What the [catch] block does never throws. *)
Lemma processEmail_catch_returns id err w :
  (processEmail_catch id err w).2 = Ok tt.
Proof.
  unfold processEmail_catch, try_catch.
  destruct (markEmailAsFailed id (message err) w) as [w' [[]|e]]; done.
Qed.

Lemma processEmail_returns id w : (processEmail id w).2 = Ok tt.
Proof.
  unfold processEmail, try_catch.
  destruct (processEmail_try id w) as [w' [[]|e]]; [done|].
  apply processEmail_catch_returns.
Qed.

End Pipeline.

Section PipelineRuns.

(** Whatever the store does, marking touches neither the transport nor any
    row but the one it is asked to mark. *)
Lemma mark_effect id st reason w :
  let mark := rethrow
    (let* email := findByPk id in
     match email with
     | Some _ => update id (set_status st reason)
     | None => ret tt
     end) in
  outbox (mark w).1 = outbox w /\ sg_script (mark w).1 = sg_script w
  /\ (emails (mark w).1 = emails w
      \/ emails (mark w).1 = alter (set_status st reason) id (emails w)).
Proof.
  destruct w as [em fs sg ob].
  unfold rethrow, try_catch, bind, findByPk, update, db_call, gets, modify, ret, throw;
    simpl.
  destruct fs as [|[e1|] [|[e2|] fs]]; simpl;
    destruct (em !! id); simpl; auto.
Qed.

Lemma alter_missing (f : Email -> Email) id (em : gmap string Email) :
  em !! id = None -> alter f id em = em.
Proof.
  intros H. apply map_eq; intros k. rewrite lookup_alter.
  case_decide; subst; [by rewrite H|done].
Qed.

(** A pending message on a store that answers: the transport is called
    once and the outcome is recorded. *)
Lemma processEmail_pending n id e w :
  answers (S (S (S n))) w -> emails w !! id = Some e -> status e = PENDING ->
  let r := send_result (default Delivered (head (sg_script w))) in
  let record :=
    if success r then set_status SENT None
    else set_status FAILED (Some (or_default (error r) "Unknown error")) in
  exists w',
    processEmail id w = (w', Ok tt) /\ answers n w'
    /\ emails w' = alter record id (emails w)
    /\ outbox w' = (outbox w ++ [mkMail (to e) (subject e) (body e)])%list.
Proof.
  intros Ha He Hst r record.
  pose proof (getEmailById_found _ id e w Ha He) as Hload.
  destruct (db_call_answers _ w Ha) as [_ Ha1].
  destruct (sendEmail_resolves (mkMail (to e) (subject e) (body e)) (after_call w))
    as (ws & r' & Hsend & Hr & Hem & Hfs & Hob).
  assert (answers (S (S n)) ws) as Ha2 by (unfold answers; rewrite Hfs; exact Ha1).
  assert (r' = r) as -> by (subst r r'; done).
  unfold processEmail, try_catch, processEmail_try, bind.
  rewrite Hload, Hst; simpl. rewrite Hsend. subst record.
  destruct (success r).
  - destruct (markEmailAsSent_answers n id ws Ha2) as (w' & Hm & Ha3 & Hem' & Hob' & _).
    rewrite Hm. exists w'. rewrite Hem', Hob', Hem, Hob. done.
  - destruct (markEmailAsFailed_answers n id
                (or_default (error r) "Unknown error") ws Ha2)
      as (w' & Hm & Ha3 & Hem' & Hob' & _).
    rewrite Hm. exists w'. rewrite Hem', Hob', Hem, Hob. done.
Qed.

(** A message that is not pending, on a store that answers the load. *)
Lemma processEmail_not_pending n id e w :
  answers (S n) w -> emails w !! id = Some e -> status e <> PENDING ->
  processEmail id w = (after_call w, Ok tt).
Proof.
  intros Ha He Hst. eapply processEmail_guard; [|exact Hst].
  by eapply getEmailById_found.
Qed.

(** No row under [id]: nothing is sent and the table stays as it is,
    whatever the store does. *)
Lemma processEmail_missing id w :
  emails w !! id = None ->
  emails (processEmail id w).1 = emails w /\ outbox (processEmail id w).1 = outbox w.
Proof.
  destruct w as [em fs sg ob]; simpl. intros He.
  unfold processEmail, processEmail_try, processEmail_catch, markEmailAsFailed,
    getEmailById, rethrow, try_catch, bind, findByPk, update, db_call, gets,
    modify, ret, throw; simpl.
  destruct fs as [|[e1|] [|[e2|] fs]]; simpl; rewrite ?He; simpl; rewrite ?He; done.
Qed.

End PipelineRuns.

(* ===================================================================== *)
(** ** The delivery pipeline: idempotency guard, outcomes, containment *)
(* ===================================================================== *)

(** C1, as amended.  For a message whose status is not Pending,
    [processEmail] is a no-op once the load of the message has answered: it
    returns without calling the outbound transport and leaves the table
    (hence the message's status and failure reason) as it was.  Hence, on a
    store that answers the calls of the two runs, the second of two
    invocations for the same id changes nothing: neither the table nor the
    transport's record. *)
Theorem processEmail_idempotency_guard :
  (forall id w e,
      answers 1 w -> emails w !! id = Some e -> status e <> PENDING ->
      exists w',
        processEmail id w = (w', Ok tt)
        /\ emails w' = emails w /\ emails w' !! id = Some e
        /\ outbox w' = outbox w)
  /\ (forall id w,
        answers 4 w ->
        let w1 := (processEmail id w).1 in
        let w2 := (processEmail id w1).1 in
        emails w2 = emails w1 /\ outbox w2 = outbox w1).
Proof.
  split.
  - intros id w e Ha He Hst. exists (after_call w).
    split; [by eapply processEmail_not_pending|]. by rewrite <- He.
  - intros id w Ha w1 w2. subst w2 w1.
    destruct (emails w !! id) as [e|] eqn:He.
    + destruct (status_eqb (status e) PENDING) eqn:Hst.
      * assert (status e = PENDING) as Hp by (destruct (status e); done).
        destruct (processEmail_pending 1 id e w Ha He Hp) as (w' & Hrun & Ha' & Hem & _).
        rewrite Hrun; simpl.
        assert (exists e', emails w' !! id = Some e' /\ status e' <> PENDING)
          as (e' & He' & Hst').
        { rewrite Hem, lookup_alter_eq, He; simpl.
          destruct (success _); eexists; (split; [done|]); done. }
        rewrite (processEmail_not_pending 0 id e' w' Ha' He' Hst'). done.
      * assert (status e <> PENDING) as Hp by (destruct (status e); done).
        rewrite (processEmail_not_pending 3 id e w Ha He Hp); simpl.
        destruct (db_call_answers 3 w Ha) as [_ Ha'].
        rewrite (processEmail_not_pending 2 id e (after_call w) Ha' He Hp). done.
    + destruct (processEmail_missing id w He) as [Hem Hob].
      apply processEmail_missing. by rewrite Hem.
Qed.

Lemma processEmail_idempotency_guard_witness :
  (exists w',
      processEmail "A" (ex_world SENT [] []) = (w', Ok tt)
      /\ emails w' = emails (ex_world SENT [] [])
      /\ emails w' !! "A" = Some (ex_email SENT)
      /\ outbox w' = outbox (ex_world SENT [] []))
  /\ (let w1 := (processEmail "A" (ex_world PENDING [] [])).1 in
      let w2 := (processEmail "A" w1).1 in
      emails w2 = emails w1 /\ outbox w2 = outbox w1).
Proof.
  split.
  - apply (proj1 processEmail_idempotency_guard "A" (ex_world SENT [] []) (ex_email SENT)).
    + apply answers_nil. reflexivity.
    + reflexivity.
    + discriminate.
  - apply (proj2 processEmail_idempotency_guard "A" (ex_world PENDING [] [])).
    apply answers_nil. reflexivity.
Defined.

(** C3, as amended.  When the pipeline processes a Pending message and the
    store answers the three calls of the run (the load and the two calls of
    the marking), the result of the transport decides what is recorded: on
    success the message becomes Sent with a null failure reason; on failure
    it becomes Failed with the transport's error text as failure reason, or
    with 'Unknown error' when the transport gives no text. *)
Theorem processEmail_records_outcome id w e ws r :
  answers 3 w -> emails w !! id = Some e -> status e = PENDING ->
  sendEmail (mkMail (to e) (subject e) (body e)) (after_call w) = (ws, Ok r) ->
  let w' := (processEmail id w).1 in
  (success r = true -> emails w' !! id = Some (set_status SENT None e))
  /\ (success r = false ->
      forall text, error r = Some text -> text <> "" ->
      emails w' !! id = Some (set_status FAILED (Some text) e))
  /\ (success r = false ->
      error r = None \/ error r = Some "" ->
      emails w' !! id = Some (set_status FAILED (Some "Unknown error") e)).
Proof.
  intros Ha He Hst Hsend w'. subst w'.
  destruct (processEmail_pending 0 id e w Ha He Hst) as (w' & Hrun & _ & Hem & _).
  destruct (sendEmail_resolves (mkMail (to e) (subject e) (body e)) (after_call w))
    as (ws' & r' & Hsend' & Hr & _).
  rewrite Hsend in Hsend'. injection Hsend' as <- <-.
  simpl in Hr. rewrite <- Hr in Hem.
  rewrite Hrun; simpl. rewrite Hem, lookup_alter_eq, He; simpl.
  repeat split.
  - intros ->. done.
  - intros -> text -> Hne. simpl.
    destruct (String.eqb_spec text ""); [done|done].
  - intros -> [-> | ->]; done.
Qed.

Lemma processEmail_records_outcome_witness :
  emails (processEmail "A"
            (ex_world PENDING [] [Refused (Some "blocked") "Forbidden"])).1 !! "A"
  = Some (set_status FAILED (Some "blocked") (ex_email PENDING)).
Proof.
  assert (answers 3 (ex_world PENDING [] [Refused (Some "blocked") "Forbidden"]))
    as Ha by (apply answers_nil; reflexivity).
  destruct (processEmail_records_outcome "A"
              (ex_world PENDING [] [Refused (Some "blocked") "Forbidden"])
              (ex_email PENDING)
              (mkWorld {[ "A" := ex_email PENDING ]} [] []
                       [mkMail "user@example.com" "Hello" "Body text"])
              (mkSendResult false (Some "blocked"))
              Ha eq_refl eq_refl eq_refl) as (_ & Hfailed & _).
  apply (Hfailed eq_refl "blocked" eq_refl). discriminate.
Defined.

(** Without a store that answers the marking, the outcome recorded is not
    that of the transport: here the message is delivered, the store fails
    once, inside [markEmailAsSent], and the [catch] block records the
    message as Failed, with the text of the store's error. *)
Lemma processEmail_delivered_mail_recorded_failed :
  let w' := (processEmail "A"
               (ex_world PENDING [None; Some "deadlock detected"] [Delivered])).1 in
  outbox w' = [mkMail "user@example.com" "Hello" "Body text"]
  /\ emails w' !! "A"
     = Some (set_status FAILED (Some "deadlock detected") (ex_email PENDING)).
Proof. split; vm_compute; reflexivity. Qed.

(* ===================================================================== *)
(** ** A timeout that elapses *)
(* ===================================================================== *)

Section Firing.

Lemma drop_promise_returns p sw : (drop_promise p sw).2 = Ok tt.
Proof. destruct p as [[|e]|]; done. Qed.

Lemma on_timeout_returns t sw : (on_timeout t sw).2 = Ok tt.
Proof.
  unfold on_timeout, bind, try_catch, zoom, modify.
  destruct (timer_callback t (timer_jobData t) sw.2) as [w' [p|e]]; simpl.
  - pose proof (drop_promise_returns p (sw.1, w')) as H.
    destruct (drop_promise p (sw.1, w')) as [sw' [[]|e]]; simpl in *; congruence.
  - done.
Qed.

Lemma fire_returns h sw : (fire h sw).2 = Ok tt.
Proof.
  unfold fire. destruct (timers sw.1 !! h) as [t|]; [|done].
  destruct (due t <=? now sw.1)%Z; [|done]. apply on_timeout_returns.
Qed.

(** The promise of the facade's callback always fulfils. *)
Lemma processEmail_callback_fulfils id d w :
  (processEmail_callback id d w).2 = Ok (Some Fulfilled).
Proof.
  unfold processEmail_callback, async.
  pose proof (processEmail_returns id w) as H.
  destruct (processEmail id w) as [w' [[]|e]]; simpl in *; congruence.
Qed.

(** What [on_timeout] leaves behind: the callback's effect on the
    collaborators, the entry of its job id gone, nothing else touched. *)
Lemma on_timeout_effect t s w :
  let s' := (on_timeout t (s, w)).1.1 in
  jobs s' = delete (timer_jobId t) (jobs s)
  /\ timers s' = timers s /\ now s' = now s /\ next_timer s' = next_timer s
  /\ (on_timeout t (s, w)).1.2 = (timer_callback t (timer_jobData t) w).1.
Proof.
  unfold on_timeout, bind, try_catch, zoom, modify; simpl.
  destruct (timer_callback t (timer_jobData t) w) as [w' [[[|e]|]|e]]; simpl; done.
Qed.

End Firing.

(** C4.  Whatever the store and the transport do, [processEmail] does not
    propagate an exception: an exception of its [try] block is caught and
    answered by a best-effort attempt to mark the message Failed with the
    exception's message (which does mark it when the store answers), and a
    failure of that attempt is swallowed.  The arrow function that the timer
    store arms catches what the callback throws, so a timeout that elapses
    always completes normally and leaves the other pending timeouts as they
    are; and the promise of the callback that the facade arms always
    fulfils. *)
Theorem processEmail_and_timers_contain_exceptions :
  (forall id w, (processEmail id w).2 = Ok tt)
  /\ (forall id w w1 err,
        processEmail_try id w = (w1, Throw err) ->
        processEmail id w = ((markEmailAsFailed id (message err) w1).1, Ok tt)
        /\ (forall e,
              answers 2 w1 -> emails w1 !! id = Some e ->
              emails (processEmail id w).1 !! id
              = Some (set_status FAILED (Some (message err)) e)))
  /\ (forall t sw,
        (on_timeout t sw).2 = Ok tt /\ timers (on_timeout t sw).1.1 = timers sw.1)
  /\ (forall h sw, (fire h sw).2 = Ok tt)
  /\ (forall id d w, (processEmail_callback id d w).2 = Ok (Some Fulfilled)).
Proof.
  split; [exact processEmail_returns|].
  split; [|split; [|split; [exact fire_returns|exact processEmail_callback_fulfils]]].
  2: { intros t [s w]. split; [apply on_timeout_returns|].
       apply (on_timeout_effect t s w). }
  intros id w w1 err Htry.
  assert (processEmail id w = ((markEmailAsFailed id (message err) w1).1, Ok tt)) as Hrun.
  { unfold processEmail, try_catch at 1. rewrite Htry.
    unfold processEmail_catch, try_catch.
    destruct (markEmailAsFailed id (message err) w1) as [w2 [[]|e2]]; done. }
  split; [exact Hrun|].
  intros e Ha He. rewrite Hrun; simpl.
  destruct (markEmailAsFailed_answers 0 id (message err) w1 Ha) as (w2 & Hm & _ & Hem & _).
  rewrite Hm; simpl. by rewrite Hem, lookup_alter_eq, He.
Qed.

Lemma processEmail_and_timers_contain_exceptions_witness :
  processEmail "A" (ex_world PENDING [Some "connection lost"] [])
  = ((markEmailAsFailed "A" "connection lost" (ex_world PENDING [] [])).1, Ok tt)
  /\ emails (processEmail "A"
               (ex_world PENDING [Some "connection lost"] [])).1 !! "A"
     = Some (set_status FAILED (Some "connection lost") (ex_email PENDING)).
Proof.
  destruct (proj1 (proj2 processEmail_and_timers_contain_exceptions) "A"
              (ex_world PENDING [Some "connection lost"] [])
              (ex_world PENDING [] []) (External "connection lost") eq_refl)
    as [Hrun Hmark].
  split; [exact Hrun|].
  apply Hmark; [apply answers_nil|]; reflexivity.
Defined.

(** Without a store that answers the guard does not hold.  The [catch]
    block does not look at the status, which it has no way to know when it
    is the load that threw: a store that fails once, on the load of a
    message that is already sent, leaves that message Failed.  And when the
    store fails on both markings of a first run, the message is delivered
    and stays Pending, so that the second run delivers it again and changes
    its status. *)
Lemma processEmail_store_fault_defeats_guard :
  (let w' := (processEmail "A" (ex_world SENT [Some "connection lost"] [])).1 in
   emails w' !! "A" = Some (set_status FAILED (Some "connection lost") (ex_email SENT))
   /\ outbox w' = [])
  /\ (let w :=
        ex_world PENDING [None; Some "deadlock detected"; Some "connection lost"] [] in
      let w1 := (processEmail "A" w).1 in
      let w2 := (processEmail "A" w1).1 in
      emails w1 !! "A" = Some (ex_email PENDING)
      /\ outbox w1 = [mkMail "user@example.com" "Hello" "Body text"]
      /\ emails w2 !! "A" = Some (set_status SENT None (ex_email PENDING))
      /\ outbox w2 = [mkMail "user@example.com" "Hello" "Body text";
                      mkMail "user@example.com" "Hello" "Body text"]).
Proof. repeat split; vm_compute; reflexivity. Qed.

(* ===================================================================== *)
(** ** The in-process timer store: one timer per job id *)
(* ===================================================================== *)

Section TimerStoreInvariant.

Lemma timer_delay_in_range d :
  (1 <= d <= TIMEOUT_MAX)%Z -> timer_delay d = d.
Proof.
  intros [H1 H2]. unfold timer_delay.
  destruct (Z.leb_spec 1 d); [|lia]. destruct (Z.leb_spec d TIMEOUT_MAX); [done|lia].
Qed.


Lemma timer_delay_bounds d : (0 < d)%Z -> (1 <= timer_delay d <= d)%Z.
Proof.
  intros H. unfold timer_delay.
  destruct (Z.leb_spec 1 d); [|lia]. destruct (Z.leb_spec d TIMEOUT_MAX); simpl; lia.
Qed.

Lemma elapses_at_bounds now scheduledAt :
  (now < scheduledAt)%Z -> (now < elapses_at now scheduledAt <= scheduledAt)%Z.
Proof.
  intros H. unfold elapses_at.
  pose proof (timer_delay_bounds (scheduledAt - now) ltac:(lia)). lia.
Qed.

Lemma elapses_at_in_range now scheduledAt :
  (now < scheduledAt)%Z -> (scheduledAt - now <= TIMEOUT_MAX)%Z ->
  elapses_at now scheduledAt = scheduledAt.
Proof.
  intros H1 H2. unfold elapses_at. rewrite timer_delay_in_range by lia. lia.
Qed.


Lemma coherent_at_most_one s : coherent s -> at_most_one_timer s.
Proof.
  intros (_ & Hts & _) jid h1 h2 (t1 & Ht1 & Hj1) (t2 & Ht2 & Hj2).
  destruct (Hts h1 t1 Ht1) as (job1 & Hjob1 & <-).
  destruct (Hts h2 t2 Ht2) as (job2 & Hjob2 & <-).
  rewrite Hj1 in Hjob1. rewrite Hj2 in Hjob2. congruence.
Qed.

Lemma coherent_new t0 : coherent (new_scheduler t0).
Proof.
  unfold coherent, new_scheduler; simpl.
  repeat split; intros ? ?; rewrite lookup_empty; discriminate.
Qed.

(** Removing the entry of [jid] together with the timeout it holds. *)
Lemma coherent_remove s jid job :
  coherent s -> jobs s !! jid = Some job ->
  coherent (mkTimerStore (delete jid (jobs s)) (now s)
                         (delete (timeout job) (timers s))
                         (next_timer s) (unhandled s)).
Proof.
  intros (Hjobs & Hts & Hfresh) Hjob. unfold coherent; simpl.
  repeat split.
  - intros jid' job' Hjob'. apply lookup_delete_Some in Hjob' as [Hne Hjob'].
    destruct (Hjobs jid' job' Hjob') as (t & Ht & Hid & Hdue).
    exists t. split; [|done]. rewrite lookup_delete_ne; [done|].
    intros Heq. destruct (Hjobs jid job Hjob) as (t0 & Ht0 & Hid0 & _).
    rewrite Heq in Ht0. congruence.
  - intros h t Ht. apply lookup_delete_Some in Ht as [Hne Ht].
    destruct (Hts h t Ht) as (job' & Hjob' & Hh).
    exists job'. split; [|done]. rewrite lookup_delete_ne; [done|].
    intros Heq. rewrite <- Heq in Hjob'. congruence.
  - intros h t Ht. apply lookup_delete_Some in Ht as [_ Ht]. eauto.
Qed.

Lemma cancel_spec jid s :
  cancel jid s =
  match jobs s !! jid with
  | Some job =>
      (mkTimerStore (delete jid (jobs s)) (now s)
                    (delete (timeout job) (timers s))
                    (next_timer s) (unhandled s), Ok true)
  | None => (s, Ok false)
  end.
Proof.
  unfold cancel, bind, gets; simpl. destruct (jobs s !! jid); done.
Qed.

Lemma coherent_cancel jid s : coherent s -> coherent (cancel jid s).1.
Proof.
  intros H. rewrite cancel_spec.
  destruct (jobs s !! jid) as [job|] eqn:Hjob; simpl; [|done].
  by apply coherent_remove.
Qed.

Lemma cancel_gone jid s : jobs (cancel jid s).1 !! jid = None.
Proof.
  rewrite cancel_spec. destruct (jobs s !! jid) as [job|] eqn:Hjob; simpl; [|done].
  apply lookup_delete_eq.
Qed.

Lemma cancel_clock jid s :
  now (cancel jid s).1 = now s /\ next_timer (cancel jid s).1 = next_timer s.
Proof. rewrite cancel_spec. destruct (jobs s !! jid); done. Qed.

(** Arming a fresh timeout for a job id that has no entry. *)
Lemma coherent_arm s jid scheduledAt dueAt cb data :
  coherent s -> jobs s !! jid = None -> (dueAt <= scheduledAt)%Z ->
  coherent
    (mkTimerStore
       (<[jid := mkJob (next_timer s) data cb scheduledAt]> (jobs s)) (now s)
       (<[next_timer s := mkTimer dueAt jid cb data]> (timers s))
       (S (next_timer s)) (unhandled s)).
Proof.
  intros (Hjobs & Hts & Hfresh) Hnone Hle. unfold coherent; simpl.
  repeat split.
  - intros jid' job' Hjob'. apply lookup_insert_Some in Hjob' as [[<- <-]|[Hne Hjob']].
    + simpl. rewrite lookup_insert_eq. eauto.
    + destruct (Hjobs jid' job' Hjob') as (t & Ht & Hid & Hdue).
      exists t. split; [|done]. rewrite lookup_insert_ne; [done|].
      apply Hfresh in Ht. lia.
  - intros h t Ht. apply lookup_insert_Some in Ht as [[<- <-]|[Hne Ht]].
    + simpl. rewrite lookup_insert_eq. eauto.
    + destruct (Hts h t Ht) as (job' & Hjob' & Hh).
      exists job'. split; [|done]. rewrite lookup_insert_ne; [done|].
      intros Heq. rewrite <- Heq in Hjob'. congruence.
  - intros h t Ht. apply lookup_insert_Some in Ht as [[<- <-]|[Hne Ht]].
    + lia.
    + apply Hfresh in Ht. lia.
Qed.

(** [schedule] is [cancel], then the test of the delay, then the arming. *)
Lemma schedule_spec jid scheduledAt cb data s :
  let s1 := (cancel jid s).1 in
  schedule jid scheduledAt cb data s =
  if (scheduledAt - now s <=? 0)%Z then (s1, Throw InvalidScheduleTime)
  else
    (mkTimerStore
       (<[jid := mkJob (next_timer s) data cb scheduledAt]> (jobs s1)) (now s)
       (<[next_timer s := mkTimer (elapses_at (now s) scheduledAt) jid cb data]>
          (timers s1))
       (S (next_timer s)) (unhandled s1),
     Ok jid).
Proof.
  intros s1. subst s1. unfold schedule, bind at 1.
  destruct (cancel_clock jid s) as [Hnow Hnext].
  destruct (cancel jid s) as [s1 [b|e]] eqn:Hc.
  - simpl in *. unfold bind, gets; simpl. rewrite Hnow.
    destruct (scheduledAt - now s <=? 0)%Z; [done|].
    unfold setTimeout, modify, set_jobs, ret; simpl. by rewrite Hnow, Hnext.
  - rewrite cancel_spec in Hc. destruct (jobs s !! jid); discriminate.
Qed.

Lemma coherent_schedule jid scheduledAt cb data s :
  coherent s -> coherent (schedule jid scheduledAt cb data s).1.
Proof.
  intros H. rewrite schedule_spec.
  pose proof (coherent_cancel jid s H) as H1.
  pose proof (cancel_gone jid s) as Hgone.
  destruct (cancel_clock jid s) as [Hnow Hnext].
  destruct (Z.leb_spec (scheduledAt - now s) 0); simpl; [done|].
  rewrite <- Hnow at 1. rewrite <- Hnext.
  apply coherent_arm; [done|done|]. apply elapses_at_bounds. lia.
Qed.

Lemma coherent_reschedule jid newScheduledAt cb data s :
  coherent s -> coherent (reschedule jid newScheduledAt cb data s).1.
Proof.
  intros H. unfold reschedule, bind.
  pose proof (coherent_cancel jid s H) as H1.
  destruct (cancel jid s) as [s1 [b|e]]; simpl in *; [|done].
  by apply coherent_schedule.
Qed.

Lemma clear_timers_lookup (js : gmap string Job) (ts : gmap nat Timer) h t :
  map_fold (fun _ job ts => delete (timeout job) ts) ts js !! h = Some t ->
  ts !! h = Some t /\ forall jid job, js !! jid = Some job -> timeout job <> h.
Proof.
  revert h t.
  apply (map_fold_weak_ind
           (fun r (m : gmap string Job) => forall h t, r !! h = Some t ->
              ts !! h = Some t /\ forall jid job, m !! jid = Some job -> timeout job <> h)).
  - intros h t Ht. split; [done|]. intros jid job. rewrite lookup_empty. discriminate.
  - intros i x m r Hi IH h t Ht.
    apply lookup_delete_Some in Ht as [Hne Ht].
    destruct (IH h t Ht) as [Hts Hm]. split; [done|].
    intros jid job Hjob. apply lookup_insert_Some in Hjob as [[<- <-]|[_ Hjob]]; eauto.
Qed.

Lemma coherent_clear s : coherent s -> coherent (clear s).1.
Proof.
  intros (Hjobs & Hts & Hfresh). unfold clear, modify, coherent; simpl.
  repeat split.
  - intros jid job. rewrite lookup_empty. discriminate.
  - intros h t Ht. apply clear_timers_lookup in Ht as [Ht Hno].
    destruct (Hts h t Ht) as (job & Hjob & Hh). by destruct (Hno _ _ Hjob).
  - intros h t Ht. apply clear_timers_lookup in Ht as [Ht _]. eauto.
Qed.

(** A timeout that elapses: its own entry and itself are gone. *)
Lemma fire_spec h s w t :
  timers s !! h = Some t -> (due t <= now s)%Z ->
  let s' := (fire h (s, w)).1.1 in
  jobs s' = delete (timer_jobId t) (jobs s)
  /\ timers s' = delete h (timers s)
  /\ now s' = now s /\ next_timer s' = next_timer s.
Proof.
  intros Ht Hdue. unfold fire; simpl. rewrite Ht.
  destruct (Z.leb_spec (due t) (now s)) as [_|]; [|lia].
  pose proof (on_timeout_effect t (clearTimeout h s).1 w) as H. simpl in H.
  tauto.
Qed.

Lemma fire_world h s w t :
  timers s !! h = Some t -> (due t <= now s)%Z ->
  (fire h (s, w)).1.2 = (timer_callback t (timer_jobData t) w).1.
Proof.
  intros Ht Hdue. unfold fire; simpl. rewrite Ht.
  destruct (Z.leb_spec (due t) (now s)) as [_|]; [|lia].
  apply (on_timeout_effect t (clearTimeout h s).1 w).
Qed.

Lemma fire_idle h s w :
  (timers s !! h = None \/ exists t, timers s !! h = Some t /\ (now s < due t)%Z) ->
  fire h (s, w) = ((s, w), Ok tt).
Proof.
  unfold fire; simpl. intros [->|(t & -> & Hlt)]; [done|].
  destruct (Z.leb_spec (due t) (now s)); [lia|done].
Qed.

Lemma coherent_fire h sw : coherent sw.1 -> coherent (fire h sw).1.1.
Proof.
  destruct sw as [s w]; simpl. intros H.
  destruct (timers s !! h) as [t|] eqn:Ht.
  - destruct (Z.leb_spec (due t) (now s)) as [Hdue|Hlt].
    + destruct (fire_spec h s w t Ht Hdue) as (Hj & Hts & Hn & Hx).
      destruct H as (Hjobs & Htimers & Hfresh).
      destruct (Htimers h t Ht) as (job & Hjob & Hh).
      pose proof (coherent_remove s (timer_jobId t) job
                    (conj Hjobs (conj Htimers Hfresh)) Hjob) as Hc.
      rewrite Hh in Hc. unfold coherent in *; simpl in Hc.
      rewrite Hj, Hts, Hx. exact Hc.
    + rewrite fire_idle; [done|]. right. eauto.
  - rewrite fire_idle; [done|]. by left.
Qed.

Lemma coherent_advance dt s : coherent s -> coherent (advance dt s).
Proof. done. Qed.

Lemma step_coherent sw sw' : step sw sw' -> coherent sw.1 -> coherent sw'.1.
Proof.
  intros Hstep. destruct Hstep; simpl; intros H.
  - by apply coherent_schedule.
  - by apply coherent_cancel.
  - by apply coherent_reschedule.
  - by apply coherent_clear.
  - by apply coherent_fire.
  - by apply coherent_advance.
  - done.
Qed.

Lemma reachable_coherent sw : reachable sw -> coherent sw.1.
Proof.
  induction 1 as [t0 w|sw sw' _ IH Hstep].
  - apply coherent_new.
  - by eapply step_coherent.
Qed.

End TimerStoreInvariant.

Section TimerStoreClaims.

(** In a coherent store nothing is armed for a job id without an entry. *)
Lemma coherent_no_entry_no_timer s jid :
  coherent s -> jobs s !! jid = None -> forall h, ~ armed s jid h.
Proof.
  intros (_ & Hts & _) Hnone h (t & Ht & Hid).
  destruct (Hts h t Ht) as (job & Hjob & _). congruence.
Qed.

Lemma coherent_entry_armed s jid job :
  coherent s -> jobs s !! jid = Some job -> armed s jid (timeout job).
Proof.
  intros (Hjobs & _) Hjob. destruct (Hjobs jid job Hjob) as (t & Ht & Hid & _).
  by exists t.
Qed.

(** The timeout held by the entry that [schedule] finds is disarmed,
    whether the arming that follows succeeds or not. *)
Lemma schedule_disarms_existing jid scheduledAt cb data s job :
  coherent s -> jobs s !! jid = Some job ->
  timers (schedule jid scheduledAt cb data s).1 !! timeout job = None.
Proof.
  intros Hc Hjob. rewrite schedule_spec, cancel_spec, Hjob.
  destruct (scheduledAt - now s <=? 0)%Z; simpl.
  - apply lookup_delete_eq.
  - destruct Hc as (Hjobs & _ & Hfresh).
    destruct (Hjobs jid job Hjob) as (t & Ht & _). apply Hfresh in Ht.
    rewrite lookup_insert_ne by lia. apply lookup_delete_eq.
Qed.

(** After a successful [schedule] the one timeout armed for the job id is
    the fresh one, due when the delay the runtime arms it with elapses. *)
Lemma schedule_arms_one jid scheduledAt cb data s :
  coherent s -> (now s < scheduledAt)%Z ->
  let r := schedule jid scheduledAt cb data s in
  r.2 = Ok jid
  /\ jobs r.1 !! jid = Some (mkJob (next_timer s) data cb scheduledAt)
  /\ timers r.1 !! next_timer s
     = Some (mkTimer (elapses_at (now s) scheduledAt) jid cb data)
  /\ (forall h, armed r.1 jid h <-> h = next_timer s)
  /\ (forall jid', jid' <> jid -> jobs r.1 !! jid' = jobs s !! jid').
Proof.
  intros Hc Hlt r. subst r.
  pose proof (coherent_schedule jid scheduledAt cb data s Hc) as Hc'.
  pose proof (cancel_gone jid s) as Hgone.
  rewrite schedule_spec in *.
  destruct (Z.leb_spec (scheduledAt - now s) 0); [lia|]. simpl in *.
  split; [done|]. split; [apply lookup_insert_eq|].
  split; [apply lookup_insert_eq|]. split.
  - intros h. split.
    + intros Harmed.
      assert (armed (mkTimerStore
                (<[jid := mkJob (next_timer s) data cb scheduledAt]>
                   (jobs (cancel jid s).1)) (now s)
                (<[next_timer s := mkTimer (elapses_at (now s) scheduledAt) jid cb data]>
                   (timers (cancel jid s).1))
                (S (next_timer s)) (unhandled (cancel jid s).1))
                jid (next_timer s)) as Hnew.
      { exists (mkTimer (elapses_at (now s) scheduledAt) jid cb data). simpl.
        split; [apply lookup_insert_eq|done]. }
      exact (coherent_at_most_one _ Hc' jid _ _ Harmed Hnew).
    + intros ->. exists (mkTimer (elapses_at (now s) scheduledAt) jid cb data). simpl.
      split; [apply lookup_insert_eq|done].
  - intros jid' Hne. rewrite lookup_insert_ne by done.
    rewrite cancel_spec. destruct (jobs s !! jid); simpl; [|done].
    by rewrite lookup_delete_ne.
Qed.

(** A [schedule] that is rejected leaves the store as [cancel] left it. *)
Lemma schedule_rejected jid scheduledAt cb data s :
  (scheduledAt <= now s)%Z ->
  schedule jid scheduledAt cb data s = ((cancel jid s).1, Throw InvalidScheduleTime).
Proof.
  intros Hle. rewrite schedule_spec.
  destruct (Z.leb_spec (scheduledAt - now s) 0); [done|lia].
Qed.

Lemma reschedule_spec jid newScheduledAt cb data s :
  reschedule jid newScheduledAt cb data s
  = schedule jid newScheduledAt cb data (cancel jid s).1.
Proof.
  unfold reschedule, bind. rewrite (cancel_spec jid s).
  destruct (jobs s !! jid); done.
Qed.

Lemma cancel_twice jid s : (cancel jid (cancel jid s).1).1 = (cancel jid s).1.
Proof.
  rewrite (cancel_spec jid (cancel jid s).1), cancel_gone. done.
Qed.

End TimerStoreClaims.

(** C5.  The in-process timer store keeps at most one armed timeout per job
    id.  In every state the process can reach, [this.jobs] and the runtime's
    pending timeouts describe each other, so that no job id has two armed
    timeouts, and every operation ([schedule], [cancel], [reschedule],
    [clear], a timeout that elapses) leads to such a state again.
    [schedule] disarms the timeout held by an existing entry of the job id
    before it arms the new one, which is then the only one armed for that
    id; a timeout that elapses removes its own entry. *)
Theorem timer_store_one_timer_per_job sw :
  reachable sw ->
  let s := sw.1 in
  at_most_one_timer s /\ coherent s
  /\ (forall sw', step sw sw' -> at_most_one_timer sw'.1 /\ coherent sw'.1)
  /\ (forall jid scheduledAt cb data,
        let r := schedule jid scheduledAt cb data s in
        (forall job, jobs s !! jid = Some job -> timers r.1 !! timeout job = None)
        /\ (r.2 = Ok jid -> forall h, armed r.1 jid h <-> h = next_timer s))
  /\ (forall h t,
        timers s !! h = Some t -> (due t <= now s)%Z ->
        let s' := (fire h sw).1.1 in
        jobs s' !! timer_jobId t = None /\ timers s' !! h = None
        /\ forall h', ~ armed s' (timer_jobId t) h').
Proof.
  intros Hreach s. subst s.
  pose proof (reachable_coherent sw Hreach) as Hc.
  split; [by apply coherent_at_most_one|]. split; [done|]. split.
  { intros sw' Hstep. pose proof (step_coherent sw sw' Hstep Hc) as Hc'.
    split; [by apply coherent_at_most_one|done]. }
  split.
  - intros jid scheduledAt cb data r. subst r. split.
    + intros job Hjob. by apply schedule_disarms_existing.
    + intros Hok h.
      destruct (Z.leb_spec (scheduledAt - now sw.1) 0) as [Hle|Hlt].
      * rewrite schedule_rejected in Hok by lia. discriminate.
      * apply (schedule_arms_one jid scheduledAt cb data sw.1 Hc). lia.
  - intros h t Ht Hdue s'. subst s'.
    pose proof (coherent_fire h sw Hc) as Hc'.
    destruct sw as [s w]; simpl in *.
    destruct (fire_spec h s w t Ht Hdue) as (Hj & Hts & _).
    assert (jobs (fire h (s, w)).1.1 !! timer_jobId t = None) as Hgone
      by (rewrite Hj; apply lookup_delete_eq).
    split; [done|]. split; [rewrite Hts; apply lookup_delete_eq|].
    by apply coherent_no_entry_no_timer.
Qed.

Lemma ex_store_A_reachable w : reachable (ex_store_A, w).
Proof.
  unfold ex_store_A.
  eapply reachable_step; [|apply step_schedule].
  eapply reachable_step; [|apply step_schedule].
  apply reachable_new.
Qed.

Lemma timer_store_one_timer_per_job_witness :
  at_most_one_timer ex_store_A /\ coherent ex_store_A
  /\ timeout <$> jobs ex_store_A !! "A" = Some 1%nat
  /\ timers ex_store_A !! 0%nat = None.
Proof.
  destruct (timer_store_one_timer_per_job (ex_store_A, ex_world PENDING [] [])
              (ex_store_A_reachable _)) as (Hone & Hcoh & _).
  split; [exact Hone|]. split; [exact Hcoh|]. split; reflexivity.
Defined.

(** C10.  In the in-process timer store, [schedule] with a due time that is
    not in the future, on a job id that holds an armed timeout, cancels and
    removes that timeout before it throws 'Scheduled time must be in the
    future': after the rejection the job id has no entry and no timeout is
    armed for it. *)
Theorem schedule_rejection_cancels_armed_timer jid scheduledAt cb data s job :
  coherent s -> jobs s !! jid = Some job -> (scheduledAt <= now s)%Z ->
  let r := schedule jid scheduledAt cb data s in
  armed s jid (timeout job)
  /\ r.2 = Throw InvalidScheduleTime
  /\ message InvalidScheduleTime = "Scheduled time must be in the future"
  /\ jobs r.1 !! jid = None
  /\ timers r.1 !! timeout job = None
  /\ (forall h, ~ armed r.1 jid h).
Proof.
  intros Hc Hjob Hle r. subst r.
  split; [by apply coherent_entry_armed|].
  pose proof (schedule_disarms_existing jid scheduledAt cb data s job Hc Hjob) as Hd.
  pose proof (coherent_schedule jid scheduledAt cb data s Hc) as Hc'.
  rewrite schedule_rejected in * by done. simpl in *.
  split; [done|]. split; [done|].
  split; [apply cancel_gone|]. split; [done|].
  apply coherent_no_entry_no_timer; [done|apply cancel_gone].
Qed.

Lemma schedule_rejection_cancels_armed_timer_witness :
  let r := schedule "A" 1000 ex_throwing_callback (mkJobData None) ex_store_A in
  armed ex_store_A "A" 1%nat
  /\ r.2 = Throw InvalidScheduleTime
  /\ message InvalidScheduleTime = "Scheduled time must be in the future"
  /\ jobs r.1 !! "A" = None
  /\ timers r.1 !! 1%nat = None
  /\ (forall h, ~ armed r.1 "A" h).
Proof.
  apply (schedule_rejection_cancels_armed_timer "A" 1000 ex_throwing_callback
           (mkJobData None) ex_store_A
           (mkJob 1 (mkJobData None) ex_throwing_callback 5000)).
  - exact (reachable_coherent _ (ex_store_A_reachable (ex_world PENDING [] []))).
  - reflexivity.
  - vm_compute. discriminate.
Defined.

(* ===================================================================== *)
(** ** The scheduling facade *)
(* ===================================================================== *)

Section Facade.

Lemma try_catch_swallow {S} (m : M S unit) s :
  (try_catch m (fun _ => ret tt) s).2 = Ok tt.
Proof. unfold try_catch. destruct (m s) as [s' [[]|e]]; done. Qed.

Lemma removeEmailJob_returns jid a : (removeEmailJob jid a).2 = Ok tt.
Proof. unfold removeEmailJob, bind, enter, modify. apply try_catch_swallow. Qed.

(** *** In-memory mode *)

Lemma addEmailJob_in_memory id scheduledAt a :
  redis_enabled a = false ->
  let r := schedule id scheduledAt (processEmail_callback id) (mkJobData (Some id))
                    (scheduler a) in
  addEmailJob id scheduledAt a =
  (set_scheduler r.1 (record_call (CallAddEmailJob id scheduledAt) a),
   match r.2 with Ok _ => Ok id | Throw e => Throw e end).
Proof.
  intros Hoff r. subst r.
  unfold addEmailJob, enter, rethrow, try_catch, bind, modify, gets; simpl.
  rewrite Hoff; simpl. unfold on_scheduler, zoom, bind; simpl.
  destruct (schedule _ _ _ _ _) as [s' [x|e]]; done.
Qed.

Lemma rescheduleEmailJob_in_memory jid newScheduledAt a :
  redis_enabled a = false ->
  let r := reschedule jid newScheduledAt (processEmail_callback jid)
                      (mkJobData (Some jid)) (scheduler a) in
  rescheduleEmailJob jid newScheduledAt a =
  (set_scheduler r.1 (record_call (CallRescheduleEmailJob jid newScheduledAt) a),
   match r.2 with Ok _ => Ok jid | Throw e => Throw e end).
Proof.
  intros Hoff r. subst r.
  unfold rescheduleEmailJob, enter, rethrow, try_catch, bind, modify, gets; simpl.
  rewrite Hoff; simpl. unfold on_scheduler, zoom, bind; simpl.
  destruct (reschedule _ _ _ _ _) as [s' [x|e]]; done.
Qed.

Lemma removeEmailJob_in_memory jid a :
  redis_enabled a = false ->
  removeEmailJob jid a =
  (set_scheduler (cancel jid (scheduler a)).1 (record_call (CallRemoveEmailJob jid) a),
   Ok tt).
Proof.
  intros Hoff.
  unfold removeEmailJob, enter, try_catch, bind, modify, gets; simpl.
  rewrite Hoff; simpl. unfold on_scheduler, zoom, bind; simpl.
  rewrite cancel_spec. destruct (jobs (scheduler a) !! jid); done.
Qed.

(** *** Distributed mode *)

Lemma getEmailQueue_available a :
  redis_enabled a = true -> queue_available a ->
  getEmailQueue a = (set_emailQueue true a, Ok true).
Proof.
  destruct a as [en q s r w cs]. unfold queue_available; simpl. intros -> Hq.
  unfold getEmailQueue, bind, gets, try_catch, on_redis, zoom, getRedisClient,
    modify, ret, set_emailQueue, set_redis; simpl.
  destruct q; simpl; [done|].
  destruct Hq as [?|Hc]; [done|]. destruct r as [c js fs]. simpl in Hc. subst c.
  done.
Qed.

(** A due time that is not in the future is turned down before the queue is
    touched. *)
Lemma addEmailJob_distributed_rejected id scheduledAt a :
  redis_enabled a = true -> queue_available a ->
  (scheduledAt <= now (scheduler a))%Z ->
  addEmailJob id scheduledAt a =
  (set_emailQueue true (record_call (CallAddEmailJob id scheduledAt) a),
   Throw InvalidScheduleTime).
Proof.
  intros Hon Hq Hle.
  unfold addEmailJob, enter, rethrow, try_catch, bind at 1, modify.
  unfold bind at 1, gets at 1. simpl. rewrite Hon; simpl.
  unfold bind at 1. rewrite getEmailQueue_available by done.
  unfold bind, Date_now, gets; simpl.
  destruct (Z.leb_spec (scheduledAt - now (scheduler a)) 0); [done|lia].
Qed.

Lemma rescheduleEmailJob_distributed_rejected jid newScheduledAt a :
  redis_enabled a = true -> queue_available a ->
  (newScheduledAt <= now (scheduler a))%Z ->
  rescheduleEmailJob jid newScheduledAt a =
  (set_emailQueue true (record_call (CallRescheduleEmailJob jid newScheduledAt) a),
   Throw InvalidScheduleTime).
Proof.
  intros Hon Hq Hle.
  unfold rescheduleEmailJob, enter, rethrow, try_catch, bind at 1, modify.
  unfold bind at 1, gets at 1. simpl. rewrite Hon; simpl.
  unfold bind at 1. rewrite getEmailQueue_available by done.
  unfold bind, Date_now, gets; simpl.
  destruct (Z.leb_spec (newScheduledAt - now (scheduler a)) 0); [done|lia].
Qed.

Lemma queue_answers_4 fs :
  Forall (fun f : option string => f = None) (take 4 fs) ->
  fs = [] \/ fs = [None] \/ fs = [None; None] \/ fs = [None; None; None]
  \/ exists rest, fs = None :: None :: None :: None :: rest.
Proof.
  intros H.
  destruct fs as [|f1 [|f2 [|f3 [|f4 rest]]]]; simpl in H;
    repeat match goal with
           | H : Forall _ (_ :: _) |- _ => inversion H; subst; clear H
           end; eauto 10.
Qed.

(** [rescheduleEmailJob] against a queue that can be had and that answers,
    by the state of the job it finds. *)
Lemma rescheduleEmailJob_distributed jid newScheduledAt a :
  redis_enabled a = true -> queue_available a ->
  (now (scheduler a) < newScheduledAt)%Z -> queue_answers 4 (redis a) ->
  let r := rescheduleEmailJob jid newScheduledAt a in
  let fresh := mkQJob "send-email" jid (newScheduledAt - now (scheduler a)) delayed in
  scheduler r.1 = scheduler a /\ world r.1 = world a
  /\ match queue_jobs (redis a) !! jid with
     | None =>
         r.2 = Ok jid
         /\ queue_jobs (redis r.1) = <[jid := fresh]> (queue_jobs (redis a))
     | Some j =>
         match job_state j with
         | completed =>
             r.2 = Throw AlreadyCompleted
             /\ queue_jobs (redis r.1) = queue_jobs (redis a)
         | active =>
             r.2 = Throw InFlight
             /\ queue_jobs (redis r.1) = queue_jobs (redis a)
         | _ =>
             r.2 = Ok jid
             /\ queue_jobs (redis r.1)
                = <[jid := fresh]> (delete jid (queue_jobs (redis a)))
         end
     end.
Proof.
  intros Hon Hq Hlt Hans r fresh. subst r fresh.
  destruct a as [en q s rd w cs]; destruct rd as [c js fs]; simpl in *. subst en.
  unfold queue_answers in Hans; simpl in Hans.
  unfold rescheduleEmailJob, enter, rethrow, try_catch, bind, modify, gets, Date_now;
    simpl.
  rewrite getEmailQueue_available by done. simpl.
  destruct (Z.leb_spec (newScheduledAt - now s) 0); [lia|].
  unfold on_redis, zoom, queue_getJob, queue_add, job_remove, job_getState,
    redis_call, set_redis, set_queue_jobs, bind, gets, modify, ret, throw; simpl.
  destruct (queue_answers_4 fs Hans) as [->|[->|[->|[->|[rest ->]]]]]; simpl;
    destruct (js !! jid) as [j|] eqn:Hj; simpl; rewrite ?Hj; simpl;
    try (destruct (job_state j); simpl; rewrite ?lookup_delete_eq; simpl);
    done.
Qed.

End Facade.

(** C6.  In distributed mode, [rescheduleEmailJob] with a due time in the
    future, against a queue that can be had and that answers, goes by the
    job it finds under the id: no job, a fresh one is added under that id
    and the id is returned; a completed job, it fails with 'Cannot
    reschedule a job that has already been completed' and the queue keeps
    its jobs; an active job, it fails with 'Cannot reschedule a job that is
    currently being processed' and the queue keeps its jobs; any other
    state, the job is removed and a new one is added under the same id with
    the new delay. *)
Theorem rescheduleEmailJob_by_job_state jid newScheduledAt a :
  redis_enabled a = true -> queue_available a ->
  (now (scheduler a) < newScheduledAt)%Z -> queue_answers 4 (redis a) ->
  let r := rescheduleEmailJob jid newScheduledAt a in
  let fresh := mkQJob "send-email" jid (newScheduledAt - now (scheduler a)) delayed in
  (queue_jobs (redis a) !! jid = None ->
     r.2 = Ok jid
     /\ queue_jobs (redis r.1) = <[jid := fresh]> (queue_jobs (redis a)))
  /\ (forall j, queue_jobs (redis a) !! jid = Some j -> job_state j = completed ->
        r.2 = Throw AlreadyCompleted
        /\ queue_jobs (redis r.1) = queue_jobs (redis a))
  /\ (forall j, queue_jobs (redis a) !! jid = Some j -> job_state j = active ->
        r.2 = Throw InFlight
        /\ queue_jobs (redis r.1) = queue_jobs (redis a))
  /\ (forall j, queue_jobs (redis a) !! jid = Some j ->
        job_state j <> completed -> job_state j <> active ->
        r.2 = Ok jid
        /\ queue_jobs (redis r.1) = <[jid := fresh]> (delete jid (queue_jobs (redis a)))
        /\ queue_jobs (redis r.1) !! jid = Some fresh).
Proof.
  intros Hon Hq Hlt Hans r fresh.
  pose proof (rescheduleEmailJob_distributed jid newScheduledAt a Hon Hq Hlt Hans)
    as (_ & _ & H).
  fold r fresh in H.
  split; [intros Hnone; rewrite Hnone in H; exact H|].
  split; [intros j Hj Hst; rewrite Hj, Hst in H; exact H|].
  split; [intros j Hj Hst; rewrite Hj, Hst in H; exact H|].
  intros j Hj Hnc Hna. rewrite Hj in H.
  assert (r.2 = Ok jid
          /\ queue_jobs (redis r.1)
             = <[jid := fresh]> (delete jid (queue_jobs (redis a)))) as [Hr Hjobs]
    by (destruct (job_state j); done).
  split; [done|]. split; [done|]. rewrite Hjobs. apply lookup_insert_eq.
Qed.

Lemma rescheduleEmailJob_by_job_state_witness :
  (rescheduleEmailJob "A" 9000 (ex_app_distributed completed)).2
  = Throw AlreadyCompleted
  /\ queue_jobs (redis (rescheduleEmailJob "A" 9000 (ex_app_distributed completed)).1)
     = queue_jobs (redis (ex_app_distributed completed)).
Proof.
  assert (queue_answers 4 (redis (ex_app_distributed completed))) as Hans
    by (unfold queue_answers; simpl; constructor).
  assert (now (scheduler (ex_app_distributed completed)) < 9000)%Z as Hlt
    by (simpl; lia).
  destruct (rescheduleEmailJob_by_job_state "A" 9000 (ex_app_distributed completed)
              eq_refl (or_introl eq_refl) Hlt Hans) as (_ & Hcompleted & _).
  exact (Hcompleted (ex_queue_job 4000 completed) eq_refl eq_refl).
Defined.





(** C8.  [cancel(jobId)] returns a boolean: [true] exactly when the job id
    had an entry, that is an armed timeout, which is then disarmed and
    removed; [false], with nothing changed, when there is none, as after the
    timeout has elapsed.  It never throws.  The facade's [removeEmailJob]
    never raises either: whatever the backend does on this path is caught. *)
Theorem cancel_reports_and_removeEmailJob_swallows :
  (forall jid s,
      exists s' b,
        cancel jid s = (s', Ok b)
        /\ (b = true <-> is_Some (jobs s !! jid))
        /\ (coherent s -> (b = true <-> exists h, armed s jid h))
        /\ (b = true ->
              jobs s' !! jid = None
              /\ forall job, jobs s !! jid = Some job -> timers s' !! timeout job = None)
        /\ (coherent s -> forall h, ~ armed s' jid h)
        /\ (b = false -> s' = s))
  /\ (forall h s w t,
        coherent s -> timers s !! h = Some t -> (due t <= now s)%Z ->
        let fired := (fire h (s, w)).1.1 in
        cancel (timer_jobId t) fired = (fired, Ok false))
  /\ (forall jid a, (removeEmailJob jid a).2 = Ok tt).
Proof.
  split; [|split].
  - intros jid s. pose proof (coherent_cancel jid s) as Hcc.
    pose proof (cancel_gone jid s) as Hgone.
    rewrite cancel_spec in *.
    destruct (jobs s !! jid) as [job|] eqn:Hjob; simpl in *.
    + eexists _, true. split; [done|]. split; [by split; eauto|].
      split.
      { intros Hc. split; [|done]. intros _. exists (timeout job).
        by apply coherent_entry_armed. }
      split.
      { intros _. split; [apply lookup_delete_eq|].
        intros job' [= <-]. apply lookup_delete_eq. }
      split; [|done].
      intros Hc. apply coherent_no_entry_no_timer; [by apply Hcc|done].
    + exists s, false. split; [done|].
      split; [split; [done|intros [? ?]; done]|].
      split.
      { intros Hc. split; [done|]. intros [h Harmed].
        by destruct (coherent_no_entry_no_timer s jid Hc Hjob h). }
      split; [done|]. split; [|done].
      intros Hc. by apply coherent_no_entry_no_timer.
  - intros h s w t Hc Ht Hdue fired. subst fired.
    destruct (fire_spec h s w t Ht Hdue) as (Hj & _).
    rewrite cancel_spec, Hj, lookup_delete_eq. done.
  - exact removeEmailJob_returns.
Qed.

Lemma cancel_reports_and_removeEmailJob_swallows_witness :
  (cancel "A" ex_store_A).2 = Ok true
  /\ (cancel "A" (cancel "A" ex_store_A).1).2 = Ok false
  /\ (removeEmailJob "A"
        (mkApp true true (new_scheduler 1000)
               (mkRedis ConnReady ∅ [Some "READONLY"]) (ex_world PENDING [] []) [])).2
     = Ok tt.
Proof.
  destruct cancel_reports_and_removeEmailJob_swallows as (Hcancel & _ & Hremove).
  split; [|split].
  - destruct (Hcancel "A" ex_store_A) as (s' & b & Hrun & Hb & _).
    rewrite Hrun. simpl. f_equal. apply Hb. by eexists.
  - reflexivity.
  - apply Hremove.
Defined.

(** C2, as amended.  For every due time that is not in the future,
    [schedule] and [reschedule] of the timer store and [addEmailJob] and
    [rescheduleEmailJob] of the facade, in both modes (in distributed mode
    once the queue can be had), reject with 'Scheduled time must be in the
    future' and arm or enqueue nothing new.  In in-memory mode no timeout
    stays armed for the job id (an existing one is cancelled on the way); in
    distributed mode the queue is left exactly as it was, so a job already
    enqueued under the id stays enqueued. *)
Theorem past_due_time_is_rejected jid dueAt a :
  (dueAt <= now (scheduler a))%Z ->
  message InvalidScheduleTime = "Scheduled time must be in the future"
  /\ (forall cb data,
        (schedule jid dueAt cb data (scheduler a)).2 = Throw InvalidScheduleTime
        /\ (reschedule jid dueAt cb data (scheduler a)).2 = Throw InvalidScheduleTime)
  /\ (redis_enabled a = false ->
        forall r, r = addEmailJob jid dueAt a \/ r = rescheduleEmailJob jid dueAt a ->
        r.2 = Throw InvalidScheduleTime
        /\ jobs (scheduler r.1) !! jid = None
        /\ (forall h t, timers (scheduler r.1) !! h = Some t ->
                        timers (scheduler a) !! h = Some t)
        /\ (coherent (scheduler a) -> forall h, ~ armed (scheduler r.1) jid h)
        /\ redis r.1 = redis a)
  /\ (redis_enabled a = true -> queue_available a ->
        forall r, r = addEmailJob jid dueAt a \/ r = rescheduleEmailJob jid dueAt a ->
        r.2 = Throw InvalidScheduleTime
        /\ redis r.1 = redis a /\ scheduler r.1 = scheduler a).
Proof.
  intros Hle. split; [done|].
  assert (forall cb data,
             reschedule jid dueAt cb data (scheduler a)
             = ((cancel jid (scheduler a)).1, Throw InvalidScheduleTime)) as Hre.
  { intros cb data. rewrite reschedule_spec, schedule_rejected, cancel_twice; [done|].
    destruct (cancel_clock jid (scheduler a)) as [-> _]. done. }
  split; [|split].
  - intros cb data. by rewrite Hre, schedule_rejected.
  - intros Hoff r Hr.
    assert (r = (set_scheduler (cancel jid (scheduler a)).1 (record_call
                   (CallAddEmailJob jid dueAt) a), Throw InvalidScheduleTime)
            \/ r = (set_scheduler (cancel jid (scheduler a)).1 (record_call
                      (CallRescheduleEmailJob jid dueAt) a), Throw InvalidScheduleTime))
      as Hcases.
    { destruct Hr as [-> | ->].
      - left. rewrite addEmailJob_in_memory by done. by rewrite schedule_rejected.
      - right. rewrite rescheduleEmailJob_in_memory by done. by rewrite Hre. }
    assert (r.2 = Throw InvalidScheduleTime
            /\ scheduler r.1 = (cancel jid (scheduler a)).1 /\ redis r.1 = redis a)
      as (Hthrow & Hs & Hredis) by (destruct Hcases as [-> | ->]; done).
    rewrite Hs. split; [done|]. split; [apply cancel_gone|]. split.
    { intros h t. rewrite cancel_spec.
      destruct (jobs (scheduler a) !! jid); simpl; [|done].
      intros Ht. by apply lookup_delete_Some in Ht as [_ Ht]. }
    split; [|done].
    intros Hc. apply coherent_no_entry_no_timer; [by apply coherent_cancel|].
    apply cancel_gone.
  - intros Hon Hq r [-> | ->].
    + by rewrite addEmailJob_distributed_rejected.
    + by rewrite rescheduleEmailJob_distributed_rejected.
Qed.

Lemma past_due_time_is_rejected_witness :
  (addEmailJob "A" 1000 ex_app_in_memory).2 = Throw InvalidScheduleTime
  /\ jobs (scheduler (addEmailJob "A" 1000 ex_app_in_memory).1) !! "A" = None
  /\ (rescheduleEmailJob "A" 500 (ex_app_distributed delayed)).2
     = Throw InvalidScheduleTime
  /\ redis (rescheduleEmailJob "A" 500 (ex_app_distributed delayed)).1
     = redis (ex_app_distributed delayed).
Proof.
  assert (1000 <= now (scheduler ex_app_in_memory))%Z as H1 by (vm_compute; discriminate).
  assert (500 <= now (scheduler (ex_app_distributed delayed)))%Z as H2
    by (vm_compute; discriminate).
  destruct (past_due_time_is_rejected "A" 1000 ex_app_in_memory H1)
    as (_ & _ & Hmemory & _).
  destruct (past_due_time_is_rejected "A" 500 (ex_app_distributed delayed) H2)
    as (_ & _ & _ & Hqueue).
  destruct (Hmemory eq_refl _ (or_introl eq_refl)) as (Ha & Hb & _).
  destruct (Hqueue eq_refl (or_introl eq_refl) _ (or_intror eq_refl)) as (Hc & Hd & _).
  split; [exact Ha|]. split; [exact Hb|]. split; [exact Hc|exact Hd].
Defined.

(** C2, as stated, fails in distributed mode: rescheduling job "A" of the
    queue to the present instant is rejected with 'Scheduled time must be in
    the future', and job "A" is still enqueued afterwards. *)
Lemma past_due_reschedule_leaves_job_enqueued :
  (1000 <=? now (scheduler (ex_app_distributed delayed)))%Z = true
  /\ (rescheduleEmailJob "A" 1000 (ex_app_distributed delayed)).2
     = Throw InvalidScheduleTime
  /\ queue_jobs (redis (rescheduleEmailJob "A" 1000 (ex_app_distributed delayed)).1) !! "A"
     = Some (ex_queue_job 4000 delayed)
  /\ (addEmailJob "A" 1000 (ex_app_distributed delayed)).2
     = Throw InvalidScheduleTime
  /\ queue_jobs (redis (addEmailJob "A" 1000 (ex_app_distributed delayed)).1) !! "A"
     = Some (ex_queue_job 4000 delayed).
Proof. repeat split; vm_compute; reflexivity. Qed.

(* ===================================================================== *)
(** ** The service layer: rescheduling on update *)
(* ===================================================================== *)

Section ThrowsOnly.

Context {S : Type} (P : JsError -> Prop).

Lemma throws_only_ret {A} (x : A) : throws_only P (@ret S A x).
Proof. intros s s' e. discriminate. Qed.

Lemma throws_only_throw {A} e : P e -> throws_only P (@throw S A e).
Proof. intros He s s' e'. unfold throw. by intros [= _ <-]. Qed.

Lemma throws_only_gets {A} (f : S -> A) : throws_only P (gets f).
Proof. intros s s' e. discriminate. Qed.

Lemma throws_only_modify (f : S -> S) : throws_only P (modify f).
Proof. intros s s' e. discriminate. Qed.

Lemma throws_only_bind {A B} (m : M S A) (k : A -> M S B) :
  throws_only P m -> (forall x, throws_only P (k x)) -> throws_only P (bind m k).
Proof.
  intros Hm Hk s s' e. unfold bind.
  destruct (m s) as [s1 [x|e1]] eqn:Hms.
  - apply Hk.
  - intros [= _ <-]. by eapply Hm.
Qed.

Lemma throws_only_try_catch {A} (m : M S A) (h : JsError -> M S A) :
  (forall e, throws_only P (h e)) -> throws_only P (try_catch m h).
Proof.
  intros Hh s s' e. unfold try_catch.
  destruct (m s) as [s1 [x|e1]]; [discriminate|apply Hh].
Qed.

Lemma throws_only_rethrow {A} (m : M S A) :
  throws_only P m -> throws_only P (rethrow m).
Proof.
  intros Hm s s' e. unfold rethrow, try_catch, throw.
  destruct (m s) as [s1 [x|e1]] eqn:Hms; [discriminate|].
  intros [= _ <-]. by eapply Hm.
Qed.

Lemma throws_only_zoom {T A} (get : S -> T) (set : T -> S -> S) (m : M T A) :
  throws_only P m -> throws_only P (zoom get set m).
Proof.
  intros Hm s s' e. unfold zoom.
  destruct (m (get s)) as [t [x|e1]] eqn:Hms; [discriminate|].
  intros [= _ <-]. by eapply Hm.
Qed.

End ThrowsOnly.

Section ServiceLayer.

Lemma db_call_calm : throws_only calm db_call.
Proof.
  intros w w' e. unfold db_call.
  destruct (db_faults w) as [|[msg|] fs]; intros [= _ <-] [?|?]; discriminate.
Qed.

Lemma redis_call_calm : throws_only calm redis_call.
Proof.
  intros r r' e. unfold redis_call.
  destruct (queue_faults r) as [|[msg|] fs]; intros [= _ <-] [?|?]; discriminate.
Qed.

Lemma findByPk_calm id : throws_only calm (findByPk id).
Proof.
  apply throws_only_bind; [apply db_call_calm|intros _; apply throws_only_gets].
Qed.

Lemma update_calm id f : throws_only calm (update id f).
Proof.
  apply throws_only_bind; [apply db_call_calm|intros _; apply throws_only_modify].
Qed.

Lemma cancel_calm jid : throws_only calm (cancel jid).
Proof. intros s s' e. rewrite cancel_spec. destruct (jobs s !! jid); discriminate. Qed.

Lemma schedule_calm jid scheduledAt cb data :
  throws_only calm (schedule jid scheduledAt cb data).
Proof.
  intros s s' e. rewrite schedule_spec.
  destruct (scheduledAt - now s <=? 0)%Z; [|discriminate].
  intros [= _ <-] [?|?]; discriminate.
Qed.

Lemma queue_add_calm name id delay jid : throws_only calm (queue_add name id delay jid).
Proof.
  apply throws_only_bind; [apply redis_call_calm|intros _].
  apply throws_only_bind; [apply throws_only_gets|intros [j|]].
  - apply throws_only_ret.
  - apply throws_only_bind; [apply throws_only_modify|intros _; apply throws_only_ret].
Qed.

Lemma getEmailQueue_calm : throws_only calm getEmailQueue.
Proof.
  apply throws_only_bind; [apply throws_only_gets|intros en].
  destruct en; simpl; [|apply throws_only_ret].
  apply throws_only_bind; [apply throws_only_gets|intros q].
  apply throws_only_bind; [|intros _; apply throws_only_gets].
  destruct q; simpl; [apply throws_only_ret|].
  apply throws_only_try_catch. intros e. apply throws_only_throw.
  intros [?|?]; discriminate.
Qed.

(** [addEmailJob] throws nothing but what [schedule], the connection and
    the queue's add can throw: never a state conflict. *)
Lemma addEmailJob_calm id scheduledAt : throws_only calm (addEmailJob id scheduledAt).
Proof.
  apply throws_only_bind; [apply throws_only_modify|intros _].
  apply throws_only_rethrow.
  apply throws_only_bind; [apply throws_only_gets|intros en].
  destruct en; simpl.
  - apply throws_only_bind; [apply getEmailQueue_calm|intros _].
    apply throws_only_bind; [apply throws_only_gets|intros t].
    destruct (scheduledAt - t <=? 0)%Z.
    + apply throws_only_throw. intros [?|?]; discriminate.
    + apply throws_only_zoom, queue_add_calm.
  - apply throws_only_bind; [|intros _; apply throws_only_ret].
    apply throws_only_zoom, schedule_calm.
Qed.

Lemma removeEmailJob_calm jid : throws_only calm (removeEmailJob jid).
Proof.
  apply throws_only_bind; [apply throws_only_modify|intros _].
  apply throws_only_try_catch. intros e. apply throws_only_ret.
Qed.

Lemma updateEmail_calm id updateData : throws_only calm (updateEmail id updateData).
Proof.
  apply throws_only_rethrow.
  apply throws_only_bind; [apply throws_only_zoom, findByPk_calm|intros [email|]].
  - destruct (status_eqb (status email) SENT).
    + apply throws_only_throw. intros [?|?]; discriminate.
    + apply throws_only_bind.
      * destruct (upd_scheduledAt updateData) as [scheduledAt|];
          [|apply throws_only_ret].
        apply throws_only_bind.
        { destruct (truthy (jobId email));
            [apply removeEmailJob_calm|apply throws_only_ret]. }
        intros _. apply throws_only_bind; [apply addEmailJob_calm|intros j].
        apply throws_only_ret.
      * intros u. apply throws_only_bind;
          [apply throws_only_zoom, update_calm|intros _; apply throws_only_ret].
  - apply throws_only_throw. intros [?|?]; discriminate.
Qed.

(** *** Who was called *)

Lemma keeps_calls_ret {A} (x : A) : keeps_calls (ret x).
Proof. done. Qed.

Lemma keeps_calls_throw {A} e : keeps_calls (@throw App A e).
Proof. done. Qed.

Lemma keeps_calls_gets {A} (f : App -> A) : keeps_calls (gets f).
Proof. done. Qed.

Lemma keeps_calls_bind {A B} (m : M App A) (k : A -> M App B) :
  keeps_calls m -> (forall x, keeps_calls (k x)) -> keeps_calls (bind m k).
Proof.
  intros Hm Hk a. unfold bind. specialize (Hm a).
  destruct (m a) as [a1 [x|e]]; simpl in *; [|done].
  by rewrite Hk.
Qed.

Lemma keeps_calls_try_catch {A} (m : M App A) (h : JsError -> M App A) :
  keeps_calls m -> (forall e, keeps_calls (h e)) -> keeps_calls (try_catch m h).
Proof.
  intros Hm Hh a. unfold try_catch. specialize (Hm a).
  destruct (m a) as [a1 [x|e]]; simpl in *; [done|].
  by rewrite Hh.
Qed.

Lemma keeps_calls_on_scheduler {A} (m : M TimerStore A) : keeps_calls (on_scheduler m).
Proof. intros a. unfold on_scheduler, zoom. by destruct (m (scheduler a)). Qed.

Lemma keeps_calls_on_redis {A} (m : M Redis A) : keeps_calls (on_redis m).
Proof. intros a. unfold on_redis, zoom. by destruct (m (redis a)). Qed.

Lemma keeps_calls_on_world {A} (m : M World A) : keeps_calls (on_world m).
Proof. intros a. unfold on_world, zoom. by destruct (m (world a)). Qed.

Lemma keeps_calls_getEmailQueue : keeps_calls getEmailQueue.
Proof.
  apply keeps_calls_bind; [apply keeps_calls_gets|intros en].
  destruct en; simpl; [|apply keeps_calls_ret].
  apply keeps_calls_bind; [apply keeps_calls_gets|intros q].
  apply keeps_calls_bind; [|intros _; apply keeps_calls_gets].
  destruct q; simpl; [apply keeps_calls_ret|].
  apply keeps_calls_try_catch; [|intros e; apply keeps_calls_throw].
  apply keeps_calls_bind; [apply keeps_calls_on_redis|intros _]. done.
Qed.

Lemma addEmailJob_calls id scheduledAt a :
  calls (addEmailJob id scheduledAt a).1
  = (calls a ++ [CallAddEmailJob id scheduledAt])%list.
Proof.
  unfold addEmailJob, bind at 1, enter, modify.
  change (calls a ++ [CallAddEmailJob id scheduledAt])%list
    with (calls (record_call (CallAddEmailJob id scheduledAt) a)).
  generalize (record_call (CallAddEmailJob id scheduledAt) a).
  apply keeps_calls_try_catch; [|intros e; apply keeps_calls_throw].
  apply keeps_calls_bind; [apply keeps_calls_gets|intros en].
  destruct en; simpl.
  - apply keeps_calls_bind; [apply keeps_calls_getEmailQueue|intros _].
    apply keeps_calls_bind; [apply keeps_calls_gets|intros t].
    destruct (scheduledAt - t <=? 0)%Z;
      [apply keeps_calls_throw|apply keeps_calls_on_redis].
  - apply keeps_calls_bind; [apply keeps_calls_on_scheduler|intros _].
    apply keeps_calls_ret.
Qed.

Lemma removeEmailJob_calls jid a :
  calls (removeEmailJob jid a).1 = (calls a ++ [CallRemoveEmailJob jid])%list.
Proof.
  unfold removeEmailJob, bind at 1, enter, modify.
  change (calls a ++ [CallRemoveEmailJob jid])%list
    with (calls (record_call (CallRemoveEmailJob jid) a)).
  generalize (record_call (CallRemoveEmailJob jid) a).
  apply keeps_calls_try_catch; [|intros e; apply keeps_calls_ret].
  apply keeps_calls_bind; [apply keeps_calls_gets|intros en].
  destruct en; simpl.
  - apply keeps_calls_bind; [apply keeps_calls_gets|intros q].
    destruct q; [|apply keeps_calls_ret].
    apply keeps_calls_bind; [apply keeps_calls_on_redis|intros [j|]];
      [apply keeps_calls_on_redis|apply keeps_calls_ret].
  - apply keeps_calls_bind; [apply keeps_calls_on_scheduler|intros _].
    apply keeps_calls_ret.
Qed.

(** The collaborators of the pipeline are out of the facade's reach. *)
Lemma addEmailJob_world id scheduledAt a :
  world (addEmailJob id scheduledAt a).1 = world a.
Proof.
  destruct a as [en q s r w cs].
  unfold addEmailJob, enter, rethrow, try_catch, bind, modify, gets, Date_now,
    getEmailQueue, on_scheduler, on_redis, zoom, try_catch, bind, gets, modify, ret,
    throw; simpl.
  destruct en; simpl.
  - destruct q; simpl.
    + destruct (scheduledAt - now s <=? 0)%Z; simpl; [done|].
      by destruct (queue_add _ _ _ _ r) as [r' [x|e]].
    + destruct (getRedisClient r) as [r' [[]|e]]; simpl; [|done].
      destruct (scheduledAt - now s <=? 0)%Z; simpl; [done|].
      by destruct (queue_add _ _ _ _ r') as [r'' [x|e]].
  - by destruct (schedule _ _ _ _ s) as [s' [x|e]].
Qed.

Lemma removeEmailJob_world jid a : world (removeEmailJob jid a).1 = world a.
Proof.
  destruct a as [en q s r w cs].
  unfold removeEmailJob, enter, try_catch, bind, modify, gets, on_scheduler,
    on_redis, zoom, ret; simpl.
  destruct en; simpl.
  - destruct q; simpl; [|done].
    destruct (queue_getJob jid r) as [r' [[j|]|e]]; simpl; [|done|done].
    by destruct (job_remove jid r') as [r'' [[]|e]].
  - by destruct (cancel jid s) as [s' [b|e]].
Qed.

(** [addEmailJob] answers with the id it was given. *)
Lemma addEmailJob_returns_id id scheduledAt a a' j :
  addEmailJob id scheduledAt a = (a', Ok j) -> j = id.
Proof.
  destruct a as [en q s r w cs].
  unfold addEmailJob, enter, rethrow, try_catch, bind, modify, gets, Date_now,
    getEmailQueue, on_scheduler, on_redis, zoom, try_catch, bind, gets, modify, ret,
    throw, queue_add, bind, gets, modify, ret; simpl.
  destruct en; simpl.
  - destruct q; simpl.
    + destruct (scheduledAt - now s <=? 0)%Z; simpl; [discriminate|].
      destruct (redis_call r) as [r' [[]|e]]; simpl; [|discriminate].
      destruct (queue_jobs r' !! id); simpl; congruence.
    + destruct (getRedisClient r) as [r' [[]|e]]; simpl; [|discriminate].
      destruct (scheduledAt - now s <=? 0)%Z; simpl; [discriminate|].
      destruct (redis_call r') as [r'' [[]|e]]; simpl; [|discriminate].
      destruct (queue_jobs r'' !! id); simpl; congruence.
  - destruct (schedule _ _ _ _ s) as [s' [x|e]]; simpl; congruence.
Qed.

End ServiceLayer.

(** C9, as amended.  For an update that carries a [scheduledAt], of an
    email that is found and not yet sent, [updateEmail] reschedules through
    [removeEmailJob] and [addEmailJob] only: it calls
    [removeEmailJob(email.jobId)] when the record has a [jobId] and skips it
    when the [jobId] is null or empty, then calls [addEmailJob] under the
    email's id, and never enters [rescheduleEmailJob].  Hence this path never
    raises the state conflicts of a reschedule (already completed, in
    flight), whatever the backing job's state.  An error of [addEmailJob] is
    passed on and leaves the table as it is; otherwise, once the store takes
    the update, the record's [jobId] is the id that [addEmailJob] returned,
    which is the email's id. *)
Theorem updateEmail_removes_then_adds id updateData a email scheduledAt :
  emails (world a) !! id = Some email -> status email <> SENT ->
  upd_scheduledAt updateData = Some scheduledAt -> answers 1 (world a) ->
  let r := updateEmail id updateData a in
  let loaded := set_world (after_call (world a)) a in
  let removed :=
    if truthy (jobId email)
    then (removeEmailJob (default "" (jobId email)) loaded).1
    else loaded in
  let added := addEmailJob id scheduledAt removed in
  calls r.1
  = (calls a
     ++ (if truthy (jobId email)
         then [CallRemoveEmailJob (default "" (jobId email))] else [])
     ++ [CallAddEmailJob id scheduledAt])%list
  /\ r.2 <> Throw AlreadyCompleted /\ r.2 <> Throw InFlight
  /\ (forall e, added.2 = Throw e ->
        r.2 = Throw e /\ emails (world r.1) = emails (world a))
  /\ (forall newJobId,
        added.2 = Ok newJobId -> answers 1 (world added.1) ->
        newJobId = id
        /\ r.2 = Ok (apply_update (set_upd_jobId newJobId updateData) email)
        /\ jobId <$> emails (world r.1) !! id = Some (Some newJobId)).
Proof.
  intros Hemail Hst Hupd Hans r loaded removed added.
  assert (r.2 <> Throw AlreadyCompleted /\ r.2 <> Throw InFlight) as Hcalm.
  { subst r. pose proof (updateEmail_calm id updateData a) as Hc.
    destruct (updateEmail id updateData a) as [a' [x|e]] eqn:Hrun; simpl; [done|].
    specialize (Hc a' e eq_refl).
    split; intros [= ->]; apply Hc; [by left|by right]. }
  assert (calls removed
          = (calls a ++ (if truthy (jobId email)
                         then [CallRemoveEmailJob (default "" (jobId email))]
                         else []))%list
          /\ world removed = after_call (world a)) as [Hcalls Hworld].
  { subst removed. destruct (truthy (jobId email)).
    - by rewrite removeEmailJob_calls, removeEmailJob_world.
    - by rewrite app_nil_r. }
  assert (calls added.1
          = (calls a ++ (if truthy (jobId email)
                         then [CallRemoveEmailJob (default "" (jobId email))]
                         else []) ++ [CallAddEmailJob id scheduledAt])%list
          /\ world added.1 = after_call (world a)) as [Hcalls' Hworld'].
  { subst added. by rewrite addEmailJob_calls, addEmailJob_world, Hcalls, app_assoc. }
  assert (status_eqb (status email) SENT = false) as Hsent
    by (destruct (status email); done).
  assert (r = match added with
              | (a3, Ok newJobId) =>
                  let u := set_upd_jobId newJobId updateData in
                  match on_world (update id (apply_update u)) a3 with
                  | (a4, Ok _) => (a4, Ok (apply_update u email))
                  | (a4, Throw e) => (a4, Throw e)
                  end
              | (a3, Throw e) => (a3, Throw e)
              end) as Hr.
  { subst r added removed loaded.
    destruct (findByPk_answers 0 id (world a) Hans) as [Hload _].
    unfold updateEmail, rethrow, try_catch, bind at 1, on_world at 1, zoom at 1.
    rewrite Hload, Hemail, Hsent, Hupd.
    unfold bind at 1. unfold bind at 1. unfold bind at 1.
    destruct (truthy (jobId email)).
    - pose proof (removeEmailJob_returns (default "" (jobId email))
                    (set_world (after_call (world a)) a)) as Hrm.
      destruct (removeEmailJob (default "" (jobId email))
                  (set_world (after_call (world a)) a)) as [a2 [[]|e2]];
        simpl in Hrm; [|discriminate]. simpl.
      unfold bind at 1.
      destruct (addEmailJob id scheduledAt a2) as [a3 [j|e3]]; simpl; [|done].
      unfold bind. by destruct (on_world _ a3) as [a4 [[]|e4]].
    - simpl. unfold bind at 1.
      destruct (addEmailJob id scheduledAt (set_world (after_call (world a)) a))
        as [a3 [j|e3]]; simpl; [|done].
      unfold bind. by destruct (on_world _ a3) as [a4 [[]|e4]]. }
  split.
  { rewrite Hr. destruct added as [a3 [j|e3]]; simpl in *; [|done].
    pose proof (keeps_calls_on_world
                  (update id (apply_update (set_upd_jobId j updateData))) a3) as Hk.
    destruct (on_world _ a3) as [a4 [[]|e4]]; simpl in *; congruence. }
  split; [tauto|]. split; [tauto|]. split.
  - intros e He. rewrite Hr. destruct added as [a3 [j|e3]]; simpl in *; [done|].
    injection He as ->. split; [done|]. by rewrite Hworld'.
  - intros newJobId Hok Hans'.
    assert (newJobId = id) as Hid.
    { destruct added as [a3 [j|e3]] eqn:Hadd; simpl in Hok; [|done].
      injection Hok as ->. subst added. by eapply addEmailJob_returns_id. }
    split; [done|]. rewrite Hr.
    destruct added as [a3 [j|e3]]; simpl in *; [|done]. injection Hok as ->.
    destruct (update_answers 0 id (apply_update (set_upd_jobId newJobId updateData))
                (world a3) Hans') as [Hu _].
    unfold on_world, zoom. rewrite Hu. simpl. split; [done|].
    rewrite lookup_alter_eq, Hworld'. simpl. rewrite Hemail. done.
Qed.

Lemma updateEmail_removes_then_adds_witness :
  calls (updateEmail "A" ex_update ex_app_with_jobId).1
  = [CallAddEmailJob "A" 60000; CallRemoveEmailJob "A"; CallAddEmailJob "A" 90000]
  /\ (updateEmail "A" ex_update ex_app_with_jobId).2 <> Throw AlreadyCompleted
  /\ (updateEmail "A" ex_update ex_app_with_jobId).2 <> Throw InFlight.
Proof.
  assert (answers 1 (world ex_app_with_jobId)) as Hans
    by (apply answers_nil; reflexivity).
  assert (status (ex_email PENDING) <> SENT) as Hst by discriminate.
  destruct (updateEmail_removes_then_adds "A" ex_update ex_app_with_jobId
              (ex_email PENDING) 90000 eq_refl Hst eq_refl Hans)
    as (Hcalls & Hc & Hf & _).
  split; [exact Hcalls|]. split; [exact Hc|exact Hf].
Defined.

(** C9, as stated, fails on a record whose [jobId] is null: the update goes
    through, [addEmailJob] is the only facade function entered, and
    [removeEmailJob] is not called. *)
Lemma updateEmail_null_jobId_skips_removeEmailJob :
  jobId <$> emails (world ex_app_no_jobId) !! "A" = Some None
  /\ calls (updateEmail "A" ex_update ex_app_no_jobId).1 = [CallAddEmailJob "A" 90000]
  /\ (updateEmail "A" ex_update ex_app_no_jobId).2
     = Ok (mkEmail "user@example.com" "Updated subject" "Body text" 90000
                   PENDING None (Some "A")).
Proof. repeat split; vm_compute; reflexivity. Qed.

(* ===================================================================== *)
(** ** More on the timer store: spent timeouts, clearing, listing *)
(* ===================================================================== *)

Section SpentTimeouts.

Lemma dead_schedule h jid scheduledAt cb data s :
  dead h s -> dead h (schedule jid scheduledAt cb data s).1.
Proof.
  intros [Hnone Hlt]. rewrite schedule_spec, cancel_spec.
  assert (timers (match jobs s !! jid with
                  | Some job =>
                      (mkTimerStore (delete jid (jobs s)) (now s)
                         (delete (timeout job) (timers s)) (next_timer s)
                         (unhandled s), Ok true)
                  | None => (s, Ok false)
                  end).1 !! h = None) as Hc.
  { destruct (jobs s !! jid); simpl; [|done].
    apply lookup_delete_None. by right. }
  destruct (scheduledAt - now s <=? 0)%Z; simpl.
  - split; [done|]. by destruct (jobs s !! jid).
  - split; simpl; [|lia]. rewrite lookup_insert_ne by lia. done.
Qed.

Lemma dead_cancel h jid s : dead h s -> dead h (cancel jid s).1.
Proof.
  intros [Hnone Hlt]. rewrite cancel_spec.
  destruct (jobs s !! jid); simpl; [|done].
  split; [|done]. apply lookup_delete_None. by right.
Qed.

Lemma dead_fire h h' sw : dead h sw.1 -> dead h (fire h' sw).1.1.
Proof.
  destruct sw as [s w]; simpl. intros [Hnone Hlt].
  destruct (timers s !! h') as [t|] eqn:Ht.
  - destruct (Z.leb_spec (due t) (now s)) as [Hdue|Hnot].
    + destruct (fire_spec h' s w t Ht Hdue) as (_ & Hts & _ & Hnext).
      split; [|by rewrite Hnext]. rewrite Hts. apply lookup_delete_None. by right.
    + rewrite fire_idle; [done|]. right. eauto.
  - rewrite fire_idle; [done|]. by left.
Qed.

Lemma dead_step h sw sw' : step sw sw' -> dead h sw.1 -> dead h sw'.1.
Proof.
  intros Hstep. destruct Hstep; simpl; intros Hd.
  - by apply dead_schedule.
  - by apply dead_cancel.
  - rewrite reschedule_spec. by apply dead_schedule, dead_cancel.
  - destruct Hd as [Hnone Hlt]. split; [|done]. simpl.
    destruct (map_fold _ _ _ !! h) as [t|] eqn:Ht; [|done].
    apply clear_timers_lookup in Ht as [Ht _]. congruence.
  - by apply dead_fire.
  - done.
  - done.
Qed.

Lemma dead_steps h sw sw' : rtc step sw sw' -> dead h sw.1 -> dead h sw'.1.
Proof. induction 1; eauto using dead_step. Qed.

Lemma dead_fire_idle h sw : dead h sw.1 -> fire h sw = (sw, Ok tt).
Proof.
  destruct sw as [s w]. intros [Hnone _]. apply fire_idle. by left.
Qed.

End SpentTimeouts.

(** X1.  A job that was cancelled is never run: once [cancel(jobId)] has
    returned, the timeout that was armed for the job is out of the runtime
    for good, so whatever the process does afterwards (other schedules,
    cancels, timeouts elapsing, time passing) that timeout can not fire.
    The same holds through the facade's [removeEmailJob] in in-memory
    mode. *)
Theorem cancelled_job_never_fires s jid h w :
  coherent s -> armed s jid h ->
  (forall sw', rtc step ((cancel jid s).1, w) sw' -> fire h sw' = (sw', Ok tt))
  /\ (forall a,
        redis_enabled a = false -> scheduler a = s ->
        forall sw',
          rtc step (scheduler (removeEmailJob jid a).1, w) sw' ->
          fire h sw' = (sw', Ok tt)).
Proof.
  intros Hc (t & Ht & Hid).
  assert (dead h (cancel jid s).1) as Hdead.
  { destruct Hc as (_ & Hts & Hfresh).
    destruct (Hts h t Ht) as (job & Hjob & Hh). rewrite Hid in Hjob.
    rewrite cancel_spec, Hjob. simpl. split; [|eauto].
    rewrite Hh. apply lookup_delete_eq. }
  split.
  - intros sw' Hsteps. apply dead_fire_idle. by eapply dead_steps.
  - intros a Hoff <- sw' Hsteps. apply dead_fire_idle.
    eapply dead_steps; [exact Hsteps|].
    rewrite removeEmailJob_in_memory by done. exact Hdead.
Qed.

Lemma cancelled_job_never_fires_witness :
  fire 1 (advance 10000 (cancel "A" ex_store_A).1, ex_world PENDING [] [])
  = ((advance 10000 (cancel "A" ex_store_A).1, ex_world PENDING [] []), Ok tt).
Proof.
  assert (armed ex_store_A "A" 1) as Harmed.
  { exists (mkTimer 5000 "A" ex_throwing_callback (mkJobData None)).
    split; reflexivity. }
  destruct (cancelled_job_never_fires ex_store_A "A" 1 (ex_world PENDING [] [])
              (reachable_coherent _ (ex_store_A_reachable (ex_world PENDING [] [])))
              Harmed) as [Hnever _].
  apply Hnever. apply rtc_once. apply step_advance.
Defined.

(** X2.  A timeout fires once: after the runtime has fired a pending timeout
    whose delay has elapsed, the entry of its job is gone and the timeout
    can not fire again, whatever the process does afterwards. *)
Theorem timeout_fires_once h sw t :
  coherent sw.1 -> timers sw.1 !! h = Some t -> (due t <= now sw.1)%Z ->
  (fire h sw).1.2 = (timer_callback t (timer_jobData t) sw.2).1
  /\ jobs (fire h sw).1.1 !! timer_jobId t = None
  /\ forall sw', rtc step (fire h sw).1 sw' -> fire h sw' = (sw', Ok tt).
Proof.
  destruct sw as [s w]; simpl. intros Hc Ht Hdue.
  destruct (fire_spec h s w t Ht Hdue) as (Hj & Hts & _ & Hnext).
  split; [by apply fire_world|]. split; [rewrite Hj; apply lookup_delete_eq|].
  intros sw' Hsteps. apply dead_fire_idle. eapply dead_steps; [exact Hsteps|].
  split; simpl.
  - rewrite Hts. apply lookup_delete_eq.
  - rewrite Hnext. destruct Hc as (_ & _ & Hfresh). eauto.
Qed.

Lemma timeout_fires_once_witness :
  jobs (fire 1 (advance 10000 ex_store_A, ex_world PENDING [] [])).1.1 !! "A" = None
  /\ fire 1 (fire 1 (advance 10000 ex_store_A, ex_world PENDING [] [])).1
     = ((fire 1 (advance 10000 ex_store_A, ex_world PENDING [] [])).1, Ok tt).
Proof.
  assert (coherent (advance 10000 ex_store_A, ex_world PENDING [] []).1) as Hc
    by exact (reachable_coherent _ (ex_store_A_reachable (ex_world PENDING [] []))).
  destruct (timeout_fires_once 1 (advance 10000 ex_store_A, ex_world PENDING [] [])
              (mkTimer 5000 "A" ex_throwing_callback (mkJobData None))
              Hc eq_refl) as (_ & Hgone & Honce).
  { vm_compute. discriminate. }
  split; [exact Hgone|]. apply Honce. apply rtc_refl.
Defined.

(** X3.  [clear()] disarms everything: in a coherent store it leaves no
    entry and no pending timeout, the store reports size 0 and an empty
    listing, and none of the timeouts that were pending fires afterwards,
    whatever the process does. *)
Theorem clear_disarms_everything s :
  coherent s ->
  let s' := (clear s).1 in
  (clear s).2 = Ok tt
  /\ jobs s' = ∅ /\ timers s' = ∅
  /\ size_jobs s' = 0%nat /\ getJobs s' = []
  /\ (forall h t w sw',
        timers s !! h = Some t -> rtc step (s', w) sw' -> fire h sw' = (sw', Ok tt)).
Proof.
  intros Hc s'. subst s'.
  assert (timers (clear s).1 = ∅) as Hts.
  { apply map_empty. intros h. simpl.
    destruct (map_fold _ _ _ !! h) as [t|] eqn:Ht; [|done].
    apply clear_timers_lookup in Ht as [Ht Hno].
    destruct Hc as (_ & Htimers & _).
    destruct (Htimers h t Ht) as (job & Hjob & Hh). by destruct (Hno _ _ Hjob). }
  split; [done|]. split; [done|]. split; [done|].
  split; [apply map_size_empty|]. split.
  { unfold getJobs. simpl. by rewrite map_to_list_empty. }
  intros h t w sw' Ht Hsteps. apply dead_fire_idle.
  eapply dead_steps; [exact Hsteps|]. change (dead h (clear s).1).
  unfold dead. rewrite Hts.
  split; [apply lookup_empty|].
  destruct Hc as (_ & _ & Hfresh). simpl. eauto.
Qed.

Lemma clear_disarms_everything_witness :
  jobs (clear ex_store_A).1 = ∅ /\ timers (clear ex_store_A).1 = ∅.
Proof.
  destruct (clear_disarms_everything ex_store_A
              (reachable_coherent _ (ex_store_A_reachable (ex_world PENDING [] []))))
    as (_ & Hjobs & Htimers & _).
  split; [exact Hjobs|exact Htimers].
Defined.

(** X4.  [getJobs()] lists exactly the entries of the store, one per job id
    with its scheduled time and job data, and [size()] is the number of
    them.  A successful [schedule] adds one to the size for a new job id and
    leaves it as it is for a job id that already has an entry; [cancel]
    takes one off exactly when it returns [true]. *)
Theorem getJobs_and_size_agree s :
  length (getJobs s) = size_jobs s
  /\ (forall jid scheduledAt data,
        (jid, scheduledAt, data) ∈ getJobs s
        <-> exists job, jobs s !! jid = Some job
                        /\ job_scheduledAt job = scheduledAt /\ jobData job = data)
  /\ (forall jid scheduledAt cb data,
        (now s < scheduledAt)%Z ->
        size_jobs (schedule jid scheduledAt cb data s).1
        = if jobs s !! jid is Some _ then size_jobs s else S (size_jobs s))
  /\ (forall jid,
        size_jobs s
        = if (cancel jid s).2 is Ok true
          then S (size_jobs (cancel jid s).1)
          else size_jobs (cancel jid s).1).
Proof.
  unfold getJobs, size_jobs. split; [|split; [|split]].
  - rewrite length_fmap. apply length_map_to_list.
  - intros jid scheduledAt data. rewrite list_elem_of_fmap. split.
    + intros ([k job] & [= -> -> ->] & Hin). apply elem_of_map_to_list in Hin.
      by exists job.
    + intros (job & Hjob & <- & <-). exists (jid, job).
      split; [done|]. by apply elem_of_map_to_list.
  - intros jid scheduledAt cb data Hlt. rewrite schedule_spec, cancel_spec.
    destruct (Z.leb_spec (scheduledAt - now s) 0); [lia|].
    destruct (jobs s !! jid) as [job|] eqn:Hjob; simpl.
    + rewrite map_size_insert_None by apply lookup_delete_eq.
      rewrite map_size_delete_Some by eauto.
      assert (size (jobs s) <> 0%nat); [|lia].
      intros Hz. apply map_size_empty_inv in Hz. rewrite Hz in Hjob.
      by rewrite lookup_empty in Hjob.
    + by rewrite map_size_insert_None.
  - intros jid. rewrite cancel_spec.
    destruct (jobs s !! jid) as [job|] eqn:Hjob; simpl; [|done].
    rewrite map_size_delete_Some by eauto.
    assert (size (jobs s) <> 0%nat); [|lia].
    intros Hz. apply map_size_empty_inv in Hz. rewrite Hz in Hjob.
    by rewrite lookup_empty in Hjob.
Qed.

Lemma getJobs_and_size_agree_witness :
  size_jobs (schedule "B" 7000 ex_throwing_callback (mkJobData None) ex_store_A).1
  = 2%nat
  /\ size_jobs (schedule "A" 7000 ex_throwing_callback (mkJobData None) ex_store_A).1
     = 1%nat.
Proof.
  destruct (getJobs_and_size_agree ex_store_A) as (_ & _ & Hsched & _).
  split.
  - rewrite (Hsched "B" 7000%Z ex_throwing_callback (mkJobData None)); reflexivity.
  - rewrite (Hsched "A" 7000%Z ex_throwing_callback (mkJobData None)); reflexivity.
Defined.

(** X5.  Scheduling a new job id and cancelling it again is a round trip:
    [cancel] returns [true] and the entries and the pending timeouts are
    those of before; only the counter of handles has moved on. *)
Theorem schedule_then_cancel_round_trip jid scheduledAt cb data s :
  coherent s -> jobs s !! jid = None -> (now s < scheduledAt)%Z ->
  let s1 := (schedule jid scheduledAt cb data s).1 in
  (cancel jid s1).2 = Ok true
  /\ jobs (cancel jid s1).1 = jobs s
  /\ timers (cancel jid s1).1 = timers s
  /\ now (cancel jid s1).1 = now s
  /\ next_timer (cancel jid s1).1 = S (next_timer s).
Proof.
  intros Hc Hnone Hlt s1. subst s1.
  rewrite schedule_spec, (cancel_spec jid s), Hnone.
  destruct (Z.leb_spec (scheduledAt - now s) 0); [lia|]. simpl.
  rewrite cancel_spec. simpl. rewrite lookup_insert_eq. simpl.
  split; [done|]. split; [by apply delete_insert_id|].
  split; [|done]. apply delete_insert_id.
  destruct Hc as (_ & _ & Hfresh).
  destruct (timers s !! next_timer s) as [t|] eqn:Ht; [|done].
  apply Hfresh in Ht. lia.
Qed.

Lemma schedule_then_cancel_round_trip_witness :
  jobs (cancel "B" (schedule "B" 7000 ex_throwing_callback (mkJobData None)
                      ex_store_A).1).1
  = jobs ex_store_A.
Proof.
  apply (schedule_then_cancel_round_trip "B" 7000 ex_throwing_callback
           (mkJobData None) ex_store_A).
  - exact (reachable_coherent _ (ex_store_A_reachable (ex_world PENDING [] []))).
  - reflexivity.
  - reflexivity.
Defined.

(* ===================================================================== *)
(** ** From scheduling to delivery *)
(* ===================================================================== *)

Lemma on_timeout_unhandled t s w :
  (timer_callback t (timer_jobData t) w).2 = Ok (Some Fulfilled) ->
  unhandled (on_timeout t (s, w)).1.1 = unhandled s.
Proof.
  intros Hcb. unfold on_timeout, bind, try_catch, zoom, modify; simpl.
  destruct (timer_callback t (timer_jobData t) w) as [w' res]. simpl in Hcb.
  rewrite Hcb. done.
Qed.

(** X6.  In in-memory mode the path from the facade to the message is
    closed: [addEmailJob] for a pending message with a due time in the
    future, at most [TIMEOUT_MAX] milliseconds ahead (the longest delay the
    timers of the runtime take), arms one timeout; before the due time it
    does not fire; once the
    clock has reached the due time and it fires, the pipeline has run
    exactly as [processEmail] does on the message, the transport was called
    once with the message's recipient, subject and body, the outcome is
    recorded on the message (Sent, or Failed with the reason), the entry of
    the job is gone and no rejection is left unhandled. *)
Theorem in_memory_delivery id scheduledAt a e dt :
  redis_enabled a = false -> coherent (scheduler a) ->
  emails (world a) !! id = Some e -> status e = PENDING ->
  (now (scheduler a) < scheduledAt)%Z ->
  (scheduledAt - now (scheduler a) <= TIMEOUT_MAX)%Z ->
  answers 3 (world a) ->
  let added := addEmailJob id scheduledAt a in
  let h := next_timer (scheduler a) in
  let later := advance dt (scheduler added.1) in
  let r := send_result (default Delivered (head (sg_script (world a)))) in
  added.2 = Ok id /\ world added.1 = world a
  /\ (forall h', armed (scheduler added.1) id h' <-> h' = h)
  /\ ((now later < scheduledAt)%Z ->
        fire h (later, world a) = ((later, world a), Ok tt))
  /\ ((scheduledAt <= now later)%Z ->
        let fired := (fire h (later, world a)).1 in
        fired.2 = (processEmail id (world a)).1
        /\ jobs fired.1 !! id = None
        /\ unhandled fired.1 = unhandled (scheduler a)
        /\ outbox fired.2
           = (outbox (world a) ++ [mkMail (to e) (subject e) (body e)])%list
        /\ emails fired.2 !! id
           = Some (if success r then set_status SENT None e
                   else set_status FAILED
                          (Some (or_default (error r) "Unknown error")) e)).
Proof.
  intros Hoff Hc He Hst Hlt Hbound Hans added h later r. subst added h later.
  rewrite addEmailJob_in_memory by done. simpl.
  destruct (schedule_arms_one id scheduledAt (processEmail_callback id)
              (mkJobData (Some id)) (scheduler a) Hc Hlt)
    as (Hok & Hentry & Htimer & Hone & _).
  rewrite elapses_at_in_range in Htimer by done.
  rewrite Hok. split; [done|]. split; [done|]. split; [done|].
  set (s1 := (schedule id scheduledAt (processEmail_callback id)
                       (mkJobData (Some id)) (scheduler a)).1) in *.
  assert (timers (advance dt s1) !! next_timer (scheduler a)
          = Some (mkTimer scheduledAt id (processEmail_callback id)
                          (mkJobData (Some id)))) as Htl by exact Htimer.
  split.
  - intros Hbefore. apply fire_idle. right. eexists. split; [exact Htl|done].
  - intros Hafter.
    destruct (fire_spec _ (advance dt s1) (world a) _ Htl Hafter) as (Hj & _).
    pose proof (fire_world _ (advance dt s1) (world a) _ Htl Hafter) as Hw.
    simpl in Hw, Hj.
    assert ((processEmail_callback id (mkJobData (Some id)) (world a)).1
            = (processEmail id (world a)).1) as Hcb.
    { unfold processEmail_callback, async.
      by destruct (processEmail id (world a)) as [w' [[]|err]]. }
    rewrite Hcb in Hw.
    destruct (processEmail_pending 0 id e (world a) Hans He Hst)
      as (w' & Hrun & _ & Hem & Hob).
    split; [done|]. split; [rewrite Hj; apply lookup_delete_eq|]. split.
    { unfold fire; simpl.
      change (timers s1 !! next_timer (scheduler a)) with
        (timers (advance dt s1) !! next_timer (scheduler a)).
      rewrite Htl. simpl.
      destruct (Z.leb_spec scheduledAt (now s1 + Z.max 0 dt)) as [_|Hn];
        [|simpl in Hafter; lia].
      rewrite on_timeout_unhandled by apply processEmail_callback_fulfils.
      simpl. subst s1. rewrite schedule_spec, cancel_spec.
      destruct (Z.leb_spec (scheduledAt - now (scheduler a)) 0); [lia|].
      by destruct (jobs (scheduler a) !! id). }
    rewrite Hw, Hrun. simpl. split; [done|].
    rewrite Hem, lookup_alter_eq, He. simpl. by destruct (success _).
Qed.

Lemma in_memory_delivery_witness :
  emails (fire 0 (advance 5000
                    (scheduler (addEmailJob "A" 5000
                       (mkApp false false (new_scheduler 1000)
                              (mkRedis ConnRefused ∅ [])
                              (ex_world PENDING [] []) [])).1),
                  ex_world PENDING [] [])).1.2 !! "A"
  = Some (set_status SENT None (ex_email PENDING)).
Proof.
  assert (answers 3 (ex_world PENDING [] [])) as Hans
    by (apply answers_nil; reflexivity).
  destruct (in_memory_delivery "A" 5000
              (mkApp false false (new_scheduler 1000) (mkRedis ConnRefused ∅ [])
                     (ex_world PENDING [] []) [])
              (ex_email PENDING) 5000 eq_refl (coherent_new 1000) eq_refl eq_refl
              eq_refl ltac:(vm_compute; discriminate) Hans)
    as (_ & _ & _ & _ & Hfired).
  destruct Hfired as (_ & _ & _ & _ & Hrow).
  - vm_compute. discriminate.
  - exact Hrow.
Defined.

(** X7.  When the load of the message throws and the store answers again
    right after, [processEmail] marks the message Failed with the message of
    that error, whatever status the message had (Sent included), and does
    not call the transport. *)
Theorem processEmail_load_fault_marks_failed id w e msg rest :
  db_faults w = Some msg :: rest ->
  Forall (fun f => f = None) (take 2 rest) ->
  emails w !! id = Some e ->
  let w' := (processEmail id w).1 in
  (processEmail id w).2 = Ok tt
  /\ emails w' !! id = Some (set_status FAILED (Some msg) e)
  /\ outbox w' = outbox w /\ sg_script w' = sg_script w.
Proof.
  intros Hfs Hrest He w'. subst w'.
  assert (processEmail_try id w = (set_db_faults rest w, Throw (External msg))) as Htry.
  { unfold processEmail_try, bind, getEmailById, rethrow, try_catch, bind, findByPk,
      bind, db_call. rewrite Hfs. done. }
  assert (answers 2 (set_db_faults rest w)) as Hans by exact Hrest.
  destruct (markEmailAsFailed_answers 0 id msg (set_db_faults rest w) Hans)
    as (w2 & Hm & _ & Hem & Hob & Hsg).
  assert (processEmail id w = (w2, Ok tt)) as Hrun.
  { unfold processEmail, try_catch at 1. rewrite Htry.
    unfold processEmail_catch, try_catch. simpl. by rewrite Hm. }
  rewrite Hrun. simpl.
  split; [done|]. split; [|done]. rewrite Hem, lookup_alter_eq. simpl.
  by rewrite He.
Qed.

Lemma processEmail_load_fault_marks_failed_witness :
  emails (processEmail "A" (ex_world SENT [Some "connection lost"] [])).1 !! "A"
  = Some (set_status FAILED (Some "connection lost") (ex_email SENT)).
Proof.
  destruct (processEmail_load_fault_marks_failed "A"
              (ex_world SENT [Some "connection lost"] []) (ex_email SENT)
              "connection lost" [] eq_refl) as (_ & Hrow & _).
  - constructor.
  - reflexivity.
  - exact Hrow.
Defined.

(** X8.  The worker's processor always answers [{ success: true, emailId }]:
    it never throws, since [processEmail] does not, so the queue is never
    told of a failure and never retries a job, also when the transport
    refused the message and the message was marked Failed. *)
Theorem worker_processor_always_succeeds :
  (forall id w, worker_processor id w = ((processEmail id w).1, Ok (true, id)))
  /\ (forall id w e response_message error_message rest,
        answers 3 w -> emails w !! id = Some e -> status e = PENDING ->
        sg_script w = Refused response_message error_message :: rest ->
        (worker_processor id w).2 = Ok (true, id)
        /\ status <$> emails (worker_processor id w).1 !! id = Some FAILED).
Proof.
  assert (forall id w, worker_processor id w = ((processEmail id w).1, Ok (true, id)))
    as Hall.
  { intros id w. unfold worker_processor, rethrow, try_catch, bind.
    pose proof (processEmail_returns id w) as Hr.
    destruct (processEmail id w) as [w' [[]|err]]; simpl in *; [done|discriminate]. }
  split; [exact Hall|].
  intros id w e response_message error_message rest Hans He Hst Hsg.
  rewrite Hall. simpl. split; [done|].
  destruct (processEmail_pending 0 id e w Hans He Hst) as (w' & Hrun & _ & Hem & _).
  rewrite Hrun, Hsg in *. simpl in *. by rewrite Hem, lookup_alter_eq, He.
Qed.

Lemma worker_processor_always_succeeds_witness :
  (worker_processor "A" (ex_world PENDING [] [Refused None "Forbidden"])).2
  = Ok (true, "A")
  /\ status <$> emails (worker_processor "A"
                          (ex_world PENDING [] [Refused None "Forbidden"])).1 !! "A"
     = Some FAILED.
Proof.
  assert (answers 3 (ex_world PENDING [] [Refused None "Forbidden"])) as Hans
    by (apply answers_nil; reflexivity).
  exact (proj2 worker_processor_always_succeeds "A"
           (ex_world PENDING [] [Refused None "Forbidden"]) (ex_email PENDING)
           None "Forbidden" [] Hans eq_refl eq_refl eq_refl).
Defined.

(* ===================================================================== *)
(** ** Creating and deleting emails *)
(* ===================================================================== *)

Section CreateDelete.

Lemma on_world_run {A} (m : M World A) a :
  on_world m a = (set_world (m (world a)).1 a, (m (world a)).2).
Proof. unfold on_world, zoom. by destruct (m (world a)). Qed.

Lemma create_answers n id emailData w :
  answers (S n) w -> emails w !! id = None ->
  create id emailData w
  = (set_emails (<[id := new_email emailData]>) (after_call w), Ok (new_email emailData))
  /\ answers n (set_emails (<[id := new_email emailData]>) (after_call w)).
Proof.
  intros Ha Hnone. destruct (db_call_answers n w Ha) as [Hc Ha'].
  unfold create, bind, gets, modify, ret. rewrite Hc. simpl. rewrite Hnone. done.
Qed.

Lemma destroy_answers n id w :
  answers (S n) w ->
  destroy id w = (set_emails (delete id) (after_call w), Ok tt)
  /\ answers n (set_emails (delete id) (after_call w)).
Proof.
  intros Ha. destruct (db_call_answers n w Ha) as [Hc Ha'].
  unfold destroy, bind, modify. rewrite Hc. done.
Qed.

Lemma addEmailJob_rejected id scheduledAt a :
  (scheduledAt <= now (scheduler a))%Z ->
  (redis_enabled a = false \/ queue_available a) ->
  (addEmailJob id scheduledAt a).2 = Throw InvalidScheduleTime
  /\ redis (addEmailJob id scheduledAt a).1 = redis a
  /\ (forall h t, timers (scheduler (addEmailJob id scheduledAt a).1) !! h = Some t ->
                  timers (scheduler a) !! h = Some t)
  /\ jobs (scheduler (addEmailJob id scheduledAt a).1) !! id
     = (if redis_enabled a then jobs (scheduler a) !! id else None).
Proof.
  intros Hle Hmode. destruct (redis_enabled a) eqn:Hen.
  - destruct Hmode as [?|Hq]; [done|].
    rewrite addEmailJob_distributed_rejected by done. done.
  - rewrite addEmailJob_in_memory by done. rewrite schedule_rejected by done. simpl.
    split; [done|]. split; [done|]. split; [|apply cancel_gone].
    intros h t. rewrite cancel_spec.
    destruct (jobs (scheduler a) !! id); simpl; [|done].
    intros Ht. by apply lookup_delete_Some in Ht as [_ Ht].
Qed.

End CreateDelete.



(** X10.  [createEmail] does not take the row back when scheduling fails:
    with a due time that is not in the future (in in-memory mode, or in
    distributed mode once the queue can be had) it throws 'Scheduled time
    must be in the future', and the row it has just created stays in the
    table, Pending, with a null [jobId]; nothing new is armed and the queue
    is as it was. *)
Theorem createEmail_rejected_leaves_row id emailData a :
  emails (world a) !! id = None -> answers 1 (world a) ->
  (new_scheduledAt emailData <= now (scheduler a))%Z ->
  (redis_enabled a = false \/ queue_available a) ->
  let r := createEmail id emailData a in
  r.2 = Throw InvalidScheduleTime
  /\ emails (world r.1) = <[id := new_email emailData]> (emails (world a))
  /\ status (new_email emailData) = PENDING /\ jobId (new_email emailData) = None
  /\ (forall h t, timers (scheduler r.1) !! h = Some t ->
                  timers (scheduler a) !! h = Some t)
  /\ redis r.1 = redis a.
Proof.
  intros Hfree Hans Hle Hmode r.
  destruct (create_answers 0 id emailData (world a) Hans Hfree) as [Hcreate _].
  set (created :=
         set_world (set_emails (<[id := new_email emailData]>) (after_call (world a))) a).
  destruct (addEmailJob_rejected id (new_scheduledAt emailData) created Hle Hmode)
    as (Hthrow & Hredis & Htimers & _).
  pose proof (addEmailJob_world id (new_scheduledAt emailData) created) as Hworld.
  assert (r = ((addEmailJob id (new_scheduledAt emailData) created).1,
               Throw InvalidScheduleTime)) as ->.
  { subst r. unfold createEmail, rethrow, try_catch, bind at 1.
    rewrite on_world_run, Hcreate. simpl. fold created. unfold bind at 1.
    destruct (addEmailJob id (new_scheduledAt emailData) created) as [a2 [j|e]];
      simpl in *; [discriminate|]. by injection Hthrow as ->. }
  simpl. split; [done|]. split; [by rewrite Hworld|]. done.
Qed.

Lemma createEmail_rejected_leaves_row_witness :
  (createEmail "B" (ex_email_data 1000) ex_app_in_memory).2 = Throw InvalidScheduleTime
  /\ jobId <$> emails (world (createEmail "B" (ex_email_data 1000) ex_app_in_memory).1) !! "B"
     = Some None.
Proof.
  assert (answers 1 (world ex_app_in_memory)) as Hans
    by (apply answers_nil; reflexivity).
  assert (new_scheduledAt (ex_email_data 1000) <= now (scheduler ex_app_in_memory))%Z
    as Hle by (vm_compute; discriminate).
  destruct (createEmail_rejected_leaves_row "B" (ex_email_data 1000) ex_app_in_memory
              eq_refl Hans Hle (or_introl eq_refl)) as (Hthrow & Hem & _).
  split; [exact Hthrow|]. rewrite Hem, lookup_insert_eq. reflexivity.
Defined.

(** X11.  [deleteEmail] of an email that is found, whatever its status:
    it cancels the job through [removeEmailJob] when the record has a
    [jobId], removes the row, leaves the other rows alone and returns
    [true]; no error of the job removal can make it fail.  In in-memory mode
    nothing stays armed for the job afterwards, and a firing that comes
    late finds no row: it sends nothing and changes nothing. *)
Theorem deleteEmail_removes_row_and_job id a e :
  emails (world a) !! id = Some e -> answers 2 (world a) ->
  let r := deleteEmail id a in
  r.2 = Ok true
  /\ emails (world r.1) = delete id (emails (world a))
  /\ calls r.1
     = (calls a ++ (if truthy (jobId e)
                    then [CallRemoveEmailJob (default "" (jobId e))] else []))%list
  /\ (redis_enabled a = false -> coherent (scheduler a) -> truthy (jobId e) = true ->
      forall h, ~ armed (scheduler r.1) (default "" (jobId e)) h)
  /\ emails (processEmail id (world r.1)).1 = emails (world r.1)
  /\ outbox (processEmail id (world r.1)).1 = outbox (world a).
Proof.
  intros He Hans r.
  destruct (findByPk_answers 1 id (world a) Hans) as [Hload Hans1].
  set (loaded := set_world (after_call (world a)) a).
  assert (exists removed,
             world removed = after_call (world a)
             /\ calls removed
                = (calls a ++ (if truthy (jobId e)
                               then [CallRemoveEmailJob (default "" (jobId e))]
                               else []))%list
             /\ (redis_enabled a = false -> truthy (jobId e) = true ->
                 scheduler removed = (cancel (default "" (jobId e)) (scheduler a)).1)
             /\ r = (set_world (set_emails (delete id) (after_call (world removed)))
                               removed, Ok true))
    as (removed & Hworld & Hcalls & Hsched & ->).
  { subst r. unfold deleteEmail, rethrow, try_catch, bind at 1.
    rewrite on_world_run, Hload, He. simpl. fold loaded. unfold bind at 1.
    destruct (truthy (jobId e)) eqn:Htr.
    - exists (removeEmailJob (default "" (jobId e)) loaded).1.
      pose proof (removeEmailJob_world (default "" (jobId e)) loaded) as Hw.
      pose proof (removeEmailJob_calls (default "" (jobId e)) loaded) as Hcl.
      pose proof (removeEmailJob_returns (default "" (jobId e)) loaded) as Hrm.
      assert (redis_enabled a = false ->
              scheduler (removeEmailJob (default "" (jobId e)) loaded).1
              = (cancel (default "" (jobId e)) (scheduler a)).1) as Hs.
      { intros Hoff. by rewrite removeEmailJob_in_memory. }
      destruct (removeEmailJob (default "" (jobId e)) loaded) as [a2 [[]|e2]];
        simpl in *; [|discriminate].
      split; [done|]. split; [done|]. split; [auto|].
      assert (answers 1 (world a2)) as Hans2 by (by rewrite Hw).
      destruct (destroy_answers 0 id (world a2) Hans2) as [Hdestroy _].
      unfold bind. by rewrite on_world_run, Hdestroy.
    - exists loaded. split; [done|]. split; [by rewrite app_nil_r|].
      split; [done|].
      destruct (destroy_answers 0 id (world loaded) Hans1) as [Hdestroy _].
      simpl. unfold bind. by rewrite on_world_run, Hdestroy. }
  simpl. split; [done|]. split; [by rewrite Hworld|]. split; [done|].
  split.
  { intros Hoff Hc Hj h. rewrite Hsched by done.
    apply coherent_no_entry_no_timer; [by apply coherent_cancel|apply cancel_gone]. }
  assert (emails (set_emails (delete id) (after_call (world removed))) !! id = None)
    as Hgone by apply lookup_delete_eq.
  destruct (processEmail_missing id _ Hgone) as [Hem Hob].
  split; [done|]. rewrite Hob. by rewrite Hworld.
Qed.

Lemma deleteEmail_removes_row_and_job_witness :
  (deleteEmail "A" ex_app_with_jobId).2 = Ok true
  /\ emails (world (deleteEmail "A" ex_app_with_jobId).1) !! "A" = None
  /\ jobs (scheduler (deleteEmail "A" ex_app_with_jobId).1) !! "A" = None.
Proof.
  assert (answers 2 (world ex_app_with_jobId)) as Hans
    by (apply answers_nil; reflexivity).
  destruct (deleteEmail_removes_row_and_job "A" ex_app_with_jobId (ex_email PENDING)
              eq_refl Hans) as (Htrue & Hem & _).
  split; [exact Htrue|]. split; [|reflexivity].
  rewrite Hem. apply lookup_delete_eq.
Defined.

(** X12.  [updateEmail] and [deleteEmail] turn down an id that is not in the
    table with 'Email not found' (status code 404), and [updateEmail] turns
    down an email that is already sent with 'Cannot update email that has
    already been sent' (status code 400), whatever the update carries; in
    each case before anything is touched: no facade function is entered and
    the table, the timer store and the queue are as they were. *)
Theorem update_and_delete_gates id updateData a :
  answers 1 (world a) ->
  (emails (world a) !! id = None ->
     forall r, r = (updateEmail id updateData a).1 \/ r = (deleteEmail id a).1 ->
     (updateEmail id updateData a).2 = Throw EmailNotFound
     /\ (deleteEmail id a).2 = Throw EmailNotFound
     /\ statusCode EmailNotFound = Some 404%nat
     /\ calls r = calls a /\ emails (world r) = emails (world a)
     /\ scheduler r = scheduler a /\ redis r = redis a)
  /\ (forall e,
        emails (world a) !! id = Some e -> status e = SENT ->
        let r := updateEmail id updateData a in
        r.2 = Throw EmailAlreadySent
        /\ statusCode EmailAlreadySent = Some 400%nat
        /\ calls r.1 = calls a /\ emails (world r.1) = emails (world a)
        /\ scheduler r.1 = scheduler a /\ redis r.1 = redis a).
Proof.
  intros Hans. destruct (findByPk_answers 0 id (world a) Hans) as [Hload _].
  split.
  - intros Hnone.
    assert (updateEmail id updateData a
            = (set_world (after_call (world a)) a, Throw EmailNotFound)) as Hu.
    { unfold updateEmail, rethrow, try_catch, bind.
      by rewrite on_world_run, Hload, Hnone. }
    assert (deleteEmail id a
            = (set_world (after_call (world a)) a, Throw EmailNotFound)) as Hd.
    { unfold deleteEmail, rethrow, try_catch, bind.
      by rewrite on_world_run, Hload, Hnone. }
    rewrite Hu, Hd. simpl. intros r [-> | ->]; done.
  - intros e He Hsent r. subst r.
    assert (updateEmail id updateData a
            = (set_world (after_call (world a)) a, Throw EmailAlreadySent)) as ->.
    { unfold updateEmail, rethrow, try_catch, bind.
      rewrite on_world_run, Hload, He. simpl. by rewrite Hsent. }
    done.
Qed.

Lemma update_and_delete_gates_witness :
  (updateEmail "A" ex_update
     (mkApp false false (new_scheduler 1000) (mkRedis ConnRefused ∅ [])
            (ex_world SENT [] []) [])).2
  = Throw EmailAlreadySent
  /\ (deleteEmail "Z" ex_app_in_memory).2 = Throw EmailNotFound.
Proof.
  split.
  - assert (answers 1 (ex_world SENT [] [])) as Hans by (apply answers_nil; reflexivity).
    destruct (update_and_delete_gates "A" ex_update
                (mkApp false false (new_scheduler 1000) (mkRedis ConnRefused ∅ [])
                       (ex_world SENT [] []) []) Hans) as [_ Hsent].
    exact (proj1 (Hsent (ex_email SENT) eq_refl eq_refl)).
  - assert (answers 1 (world ex_app_in_memory)) as Hans
      by (apply answers_nil; reflexivity).
    destruct (update_and_delete_gates "Z" ex_update ex_app_in_memory Hans) as [Hmiss _].
    exact (proj1 (proj2 (Hmiss eq_refl _ (or_introl eq_refl)))).
Defined.

(* ===================================================================== *)
(** ** More on updating an email *)
(* ===================================================================== *)

Section UpdateRuns.

(** [updateEmail] with a [scheduledAt], past its two gates. *)
Lemma updateEmail_run id updateData a email scheduledAt :
  answers 1 (world a) -> emails (world a) !! id = Some email ->
  status email <> SENT -> upd_scheduledAt updateData = Some scheduledAt ->
  let loaded := set_world (after_call (world a)) a in
  let removed :=
    if truthy (jobId email)
    then (removeEmailJob (default "" (jobId email)) loaded).1
    else loaded in
  updateEmail id updateData a
  = match addEmailJob id scheduledAt removed with
    | (a3, Ok newJobId) =>
        let u := set_upd_jobId newJobId updateData in
        match on_world (update id (apply_update u)) a3 with
        | (a4, Ok _) => (a4, Ok (apply_update u email))
        | (a4, Throw e) => (a4, Throw e)
        end
    | (a3, Throw e) => (a3, Throw e)
    end.
Proof.
  intros Hans Hemail Hst Hupd loaded removed. subst removed loaded.
  assert (status_eqb (status email) SENT = false) as Hsent
    by (destruct (status email); done).
  destruct (findByPk_answers 0 id (world a) Hans) as [Hload _].
  unfold updateEmail, rethrow, try_catch, bind at 1.
  rewrite on_world_run, Hload, Hemail. simpl. rewrite Hsent, Hupd.
  unfold bind at 1. unfold bind at 1. unfold bind at 1.
  destruct (truthy (jobId email)).
  - pose proof (removeEmailJob_returns (default "" (jobId email))
                  (set_world (after_call (world a)) a)) as Hrm.
    destruct (removeEmailJob (default "" (jobId email))
                (set_world (after_call (world a)) a)) as [a2 [[]|e2]];
      simpl in Hrm; [|discriminate]. simpl.
    unfold bind at 1.
    destruct (addEmailJob id scheduledAt a2) as [a3 [j|e3]]; simpl; [|done].
    unfold bind. by destruct (on_world _ a3) as [a4 [[]|e4]].
  - simpl. unfold bind at 1.
    destruct (addEmailJob id scheduledAt (set_world (after_call (world a)) a))
      as [a3 [j|e3]]; simpl; [|done].
    unfold bind. by destruct (on_world _ a3) as [a4 [[]|e4]].
Qed.

(** The timer store after the removal that [updateEmail] asks for, in
    in-memory mode. *)
Lemma update_removed_in_memory a email :
  redis_enabled a = false -> coherent (scheduler a) ->
  let loaded := set_world (after_call (world a)) a in
  let removed :=
    if truthy (jobId email)
    then (removeEmailJob (default "" (jobId email)) loaded).1
    else loaded in
  redis_enabled removed = false /\ coherent (scheduler removed)
  /\ now (scheduler removed) = now (scheduler a)
  /\ next_timer (scheduler removed) = next_timer (scheduler a)
  /\ world removed = after_call (world a) /\ redis removed = redis a
  /\ (forall h t, timers (scheduler removed) !! h = Some t ->
                  timers (scheduler a) !! h = Some t).
Proof.
  intros Hoff Hc loaded removed. subst removed loaded.
  destruct (truthy (jobId email)); [|done].
  rewrite removeEmailJob_in_memory by done. simpl.
  split; [done|]. split; [by apply coherent_cancel|].
  split; [apply cancel_clock|]. split; [apply cancel_clock|].
  split; [done|]. split; [done|].
  intros h t. rewrite cancel_spec.
  destruct (jobs (scheduler a) !! default "" (jobId email)); simpl; [|done].
  intros Ht. by apply lookup_delete_Some in Ht as [_ Ht].
Qed.

End UpdateRuns.

(** X13.  An update that carries no [scheduledAt], of an email that is
    found and not sent, does not touch the scheduling at all: no facade
    function is entered, the timer store and the queue are as they were, and
    the row takes the fields of the update and keeps its scheduled time, its
    [jobId], its status and its failure reason. *)
Theorem updateEmail_without_scheduledAt id updateData a e :
  emails (world a) !! id = Some e -> status e <> SENT ->
  upd_scheduledAt updateData = None -> upd_jobId updateData = None ->
  answers 2 (world a) ->
  let r := updateEmail id updateData a in
  r.2 = Ok (apply_update updateData e)
  /\ emails (world r.1) = <[id := apply_update updateData e]> (emails (world a))
  /\ calls r.1 = calls a /\ scheduler r.1 = scheduler a /\ redis r.1 = redis a
  /\ scheduledAt (apply_update updateData e) = scheduledAt e
  /\ jobId (apply_update updateData e) = jobId e
  /\ status (apply_update updateData e) = status e
  /\ failureReason (apply_update updateData e) = failureReason e.
Proof.
  intros He Hst Hupd Hj Hans r. subst r.
  assert (status_eqb (status e) SENT = false) as Hsent by (destruct (status e); done).
  destruct (findByPk_answers 1 id (world a) Hans) as [Hload Hans1].
  destruct (update_answers 0 id (apply_update updateData) (after_call (world a)) Hans1)
    as [Hu _].
  assert (updateEmail id updateData a
          = (set_world (set_emails (alter (apply_update updateData) id)
                                   (after_call (after_call (world a)))) a,
             Ok (apply_update updateData e))) as ->.
  { unfold updateEmail, rethrow, try_catch, bind at 1.
    rewrite on_world_run, Hload, He. simpl. rewrite Hsent, Hupd.
    unfold bind, ret. simpl. rewrite on_world_run. simpl. by rewrite Hu. }
  simpl. split; [done|]. split.
  { apply map_eq. intros k. rewrite lookup_alter. case_decide as Hk.
    - subst k. by rewrite He, lookup_insert_eq.
    - by rewrite lookup_insert_ne. }
  unfold apply_update. simpl. by rewrite Hupd, Hj.
Qed.

Lemma updateEmail_without_scheduledAt_witness :
  subject <$> emails (world (updateEmail "A"
                               (mkUpdateData None (Some "Updated subject") None None None)
                               ex_app_with_jobId).1) !! "A"
  = Some "Updated subject"
  /\ scheduler (updateEmail "A"
                  (mkUpdateData None (Some "Updated subject") None None None)
                  ex_app_with_jobId).1
     = scheduler ex_app_with_jobId.
Proof.
  assert (answers 2 (world ex_app_with_jobId)) as Hans
    by (apply answers_nil; reflexivity).
  assert (status (ex_email PENDING) <> SENT) as Hst by discriminate.
  destruct (updateEmail_without_scheduledAt "A"
              (mkUpdateData None (Some "Updated subject") None None None)
              ex_app_with_jobId (ex_email PENDING) eq_refl Hst eq_refl eq_refl Hans)
    as (_ & Hem & _ & Hs & _).
  split; [|exact Hs]. rewrite Hem, lookup_insert_eq. reflexivity.
Defined.

(** X14.  In in-memory mode an update whose new time is turned down costs
    the email its schedule: [updateEmail] throws 'Scheduled time must be in
    the future' and the row is as it was, with its old scheduled time, but
    the job of the email has been cancelled on the way and nothing is armed
    for it any more. *)
Theorem updateEmail_rejected_loses_job id updateData a e scheduledAt :
  redis_enabled a = false -> coherent (scheduler a) ->
  emails (world a) !! id = Some e -> status e <> SENT ->
  upd_scheduledAt updateData = Some scheduledAt ->
  (scheduledAt <= now (scheduler a))%Z -> answers 1 (world a) ->
  let r := updateEmail id updateData a in
  r.2 = Throw InvalidScheduleTime
  /\ emails (world r.1) = emails (world a)
  /\ jobs (scheduler r.1) !! id = None
  /\ (forall h, ~ armed (scheduler r.1) id h).
Proof.
  intros Hoff Hc He Hst Hupd Hle Hans r. subst r.
  rewrite (updateEmail_run id updateData a e scheduledAt) by done.
  destruct (update_removed_in_memory a e Hoff Hc)
    as (Hoff' & Hc' & Hnow & _ & Hworld & _).
  set (removed := if truthy (jobId e)
                  then (removeEmailJob (default "" (jobId e))
                          (set_world (after_call (world a)) a)).1
                  else set_world (after_call (world a)) a) in *.
  rewrite addEmailJob_in_memory by done.
  rewrite schedule_rejected by (rewrite Hnow; done). simpl.
  split; [done|]. split; [by rewrite Hworld|]. split; [apply cancel_gone|].
  apply coherent_no_entry_no_timer; [by apply coherent_cancel|apply cancel_gone].
Qed.

Lemma updateEmail_rejected_loses_job_witness :
  (updateEmail "A" (mkUpdateData None None None (Some 500%Z) None)
     ex_app_with_jobId).2 = Throw InvalidScheduleTime
  /\ jobs (scheduler (updateEmail "A" (mkUpdateData None None None (Some 500%Z) None)
                        ex_app_with_jobId).1) !! "A" = None
  /\ is_Some (jobs (scheduler ex_app_with_jobId) !! "A").
Proof.
  assert (answers 1 (world ex_app_with_jobId)) as Hans
    by (apply answers_nil; reflexivity).
  assert (status (ex_email PENDING) <> SENT) as Hst by discriminate.
  assert (coherent (scheduler ex_app_with_jobId)) as Hc
    by exact (coherent_schedule "A" 60000 (processEmail_callback "A")
                (mkJobData (Some "A")) (new_scheduler 1000) (coherent_new 1000)).
  assert (500 <= now (scheduler ex_app_with_jobId))%Z as Hle
    by (vm_compute; discriminate).
  destruct (updateEmail_rejected_loses_job "A"
              (mkUpdateData None None None (Some 500%Z) None) ex_app_with_jobId
              (ex_email PENDING) 500 eq_refl Hc eq_refl Hst eq_refl Hle Hans)
    as (Hthrow & _ & Hgone & _).
  split; [exact Hthrow|]. split; [exact Hgone|]. by eexists.
Defined.



(* ===================================================================== *)
(** ** More on the facade: the two modes, the connection, the queue *)
(* ===================================================================== *)

(** X16.  The two backing modes do not mix.  In in-memory mode none of
    [addEmailJob], [removeEmailJob] and [rescheduleEmailJob] touches the
    queue or asks for a connection; in distributed mode none of them
    touches the timer store.  And none of them touches the table of emails
    or the transport. *)
Theorem facade_modes_do_not_mix jid scheduledAt a :
  forall r,
    r = (addEmailJob jid scheduledAt a).1 \/ r = (removeEmailJob jid a).1
    \/ r = (rescheduleEmailJob jid scheduledAt a).1 ->
    redis_enabled r = redis_enabled a /\ world r = world a
    /\ (redis_enabled a = false -> redis r = redis a /\ emailQueue r = emailQueue a)
    /\ (redis_enabled a = true -> scheduler r = scheduler a).
Proof.
  destruct a as [en q s rd w cs].
  intros r [-> | [-> | ->]].
  - unfold addEmailJob, enter, rethrow, try_catch, bind, modify, gets, Date_now,
      getEmailQueue, on_scheduler, on_redis, zoom, try_catch, bind, gets, modify, ret,
      throw; simpl.
    destruct en; simpl.
    + destruct q; simpl.
      * destruct (scheduledAt - now s <=? 0)%Z; simpl; [done|].
        by destruct (queue_add _ _ _ _ rd) as [r' [x|e]].
      * destruct (getRedisClient rd) as [r' [[]|e]]; simpl; [|done].
        destruct (scheduledAt - now s <=? 0)%Z; simpl; [done|].
        by destruct (queue_add _ _ _ _ r') as [r'' [x|e]].
    + by destruct (schedule _ _ _ _ s) as [s' [x|e]].
  - unfold removeEmailJob, enter, try_catch, bind, modify, gets, on_scheduler,
      on_redis, zoom, ret; simpl.
    destruct en; simpl.
    + destruct q; simpl; [|done].
      destruct (queue_getJob jid rd) as [r' [[j|]|e]]; simpl; [|done|done].
      by destruct (job_remove jid r') as [r'' [[]|e]].
    + by destruct (cancel jid s) as [s' [b|e]].
  - unfold rescheduleEmailJob, enter, rethrow, try_catch, bind, modify, gets, Date_now,
      getEmailQueue, on_scheduler, on_redis, zoom, try_catch, bind, gets, modify, ret,
      throw; simpl.
    destruct en; simpl.
    + destruct q; simpl;
        [|destruct (getRedisClient rd) as [rd' [[]|e]]; simpl; [|done]];
        (destruct (scheduledAt - now s <=? 0)%Z; simpl; [done|]);
        (match goal with
         | |- context [queue_getJob jid ?x] =>
             destruct (queue_getJob jid x) as [r1 [[j|]|e]]; simpl; [| |done]
         end;
         [ destruct (job_getState jid r1) as [r2 [st|e]]; simpl; [|done];
           destruct st; simpl; try done;
           (destruct (job_remove jid r2) as [r3 [[]|e]]; simpl; [|done];
            by destruct (queue_add _ _ _ _ r3) as [r4 [x|e]])
         | by destruct (queue_add _ _ _ _ r1) as [r2 [x|e]] ]).
    + by destruct (reschedule _ _ _ _ s) as [s' [x|e]].
Qed.

Lemma facade_modes_do_not_mix_witness :
  scheduler (rescheduleEmailJob "A" 9000 (ex_app_distributed delayed)).1
  = scheduler (ex_app_distributed delayed).
Proof.
  destruct (facade_modes_do_not_mix "A" 9000 (ex_app_distributed delayed) _
              (or_intror (or_intror eq_refl))) as (_ & _ & _ & H).
  exact (H eq_refl).
Defined.

(** X17.  [removeEmailJob] in distributed mode looks at the module variable
    [emailQueue], not at [getEmailQueue()].  While the queue has not been
    created in this process it asks the backend nothing, so a job that is
    enqueued there stays enqueued; once the queue exists and the backend
    answers, no job is left under the id; when the first call to the backend
    fails, the queue keeps its jobs.  The call never creates the queue. *)
Theorem removeEmailJob_distributed jid a :
  redis_enabled a = true ->
  let r := (removeEmailJob jid a).1 in
  emailQueue r = emailQueue a /\ conn (redis r) = conn (redis a)
  /\ (emailQueue a = false -> redis r = redis a)
  /\ (emailQueue a = true -> queue_answers 2 (redis a) ->
      queue_jobs (redis r) = delete jid (queue_jobs (redis a)))
  /\ (emailQueue a = true ->
      (exists msg fs, queue_faults (redis a) = Some msg :: fs) ->
      queue_jobs (redis r) = queue_jobs (redis a)).
Proof.
  destruct a as [en q s [c js fs] w cs]; simpl. intros ->.
  unfold removeEmailJob, enter, try_catch, bind, modify, gets, on_redis, zoom, ret,
    queue_getJob, job_remove, redis_call, queue_answers, bind, gets, modify, ret;
    simpl.
  destruct q; simpl; [|done].
  destruct (js !! jid) eqn:E; simpl;
    destruct fs as [|[m1|] [|[m2|] fs]]; simpl; rewrite ?E; simpl;
    repeat split; try done; intros _ H; simpl in H;
    try (destruct H as [m [fs' H]]; done);
    repeat match goal with
           | H : Forall _ (_ :: _) |- _ => inversion H; subst; clear H
           end;
    try done; by rewrite delete_id.
Qed.

Lemma removeEmailJob_distributed_witness :
  redis (removeEmailJob "A" ex_app_restarted).1 = redis ex_app_restarted.
Proof.
  destruct (removeEmailJob_distributed "A" ex_app_restarted eq_refl)
    as (_ & _ & H & _).
  exact (H eq_refl).
Defined.

(** X18.  In distributed mode, while the queue has not been created and
    the client's [connect()] rejects, [addEmailJob] and [rescheduleEmailJob]
    both fail with "Redis connection failed: <cause>. Please ensure Redis is
    running or ...", whatever the requested time (the connection is tried
    before the time is looked at).  The cause is the text "Redis is not
    running. ..." when the rejection carries the code ECONNREFUSED, and the
    message of the rejection otherwise, as for the "Connection is closed."
    of a server that refuses the connection.  Nothing reaches the backend
    and the queue stays uncreated, so the next call tries the connection
    again. *)
Theorem rejected_connection_fails_scheduling id scheduledAt a code msg :
  redis_enabled a = true -> emailQueue a = false ->
  conn (redis a) = ConnRejects code msg ->
  let cause :=
    if bool_decide (code = Some "ECONNREFUSED") then message RedisNotRunning
    else msg in
  let failure : Result string := Throw (RedisConnectionFailed cause) in
  let add := addEmailJob id scheduledAt a in
  let res := rescheduleEmailJob id scheduledAt a in
  add.2 = failure /\ res.2 = failure
  /\ redis add.1 = redis a /\ redis res.1 = redis a
  /\ emailQueue add.1 = false /\ emailQueue res.1 = false
  /\ statusCode (RedisConnectionFailed cause) = None
  /\ error_name (RedisConnectionFailed cause) = Some Error_name.
Proof.
  destruct a as [en q s [c js fs] w cs]; simpl. intros -> -> ->.
  unfold addEmailJob, rescheduleEmailJob, enter, rethrow, try_catch, bind, modify,
    gets, getEmailQueue, on_redis, zoom, getRedisClient, try_catch, bind, gets,
    modify, ret, throw; simpl.
  by destruct (bool_decide (code = Some "ECONNREFUSED")).
Qed.

Lemma rejected_connection_fails_scheduling_witness :
  (addEmailJob "B" 500 ex_app_redis_down).2
  = Throw (RedisConnectionFailed "Connection is closed.")
  /\ message (RedisConnectionFailed "Connection is closed.")
     = "Redis connection failed: Connection is closed.. Please ensure Redis is running or set REDIS_ENABLED=false in .env".
Proof.
  split; [|reflexivity].
  exact (proj1 (rejected_connection_fails_scheduling "B" 500 ex_app_redis_down
                  None "Connection is closed." eq_refl eq_refl eq_refl)).
Defined.

Section DistributedAdd.

Lemma addEmailJob_distributed_run id scheduledAt a :
  redis_enabled a = true -> queue_available a ->
  (now (scheduler a) < scheduledAt)%Z ->
  addEmailJob id scheduledAt a
  = let r := queue_add "send-email" id (scheduledAt - now (scheduler a)) id (redis a) in
    (set_redis r.1 (set_emailQueue true (record_call (CallAddEmailJob id scheduledAt) a)),
     r.2).
Proof.
  destruct a as [en q s [c js fs] w cs]; unfold queue_available; simpl.
  intros -> Hq Hlt.
  unfold addEmailJob, enter, rethrow, try_catch, bind, modify, gets, Date_now,
    getEmailQueue, on_redis, zoom, getRedisClient, try_catch, bind, gets, modify,
    ret, throw; simpl.
  destruct q; simpl; [|destruct Hq as [? | ->]; [done|]; simpl];
    (destruct (Z.leb_spec (scheduledAt - now s) 0); [lia|]);
    by destruct (queue_add _ _ _ _ _) as [r' [x|e]].
Qed.

End DistributedAdd.

(** X19.  In distributed mode, with the queue at hand (or a server that
    accepts the connection), a backend that answers and no job under the
    id yet, [addEmailJob] for a time in the future enqueues one delayed job
    named "send-email" under the email's id, with the delay
    [scheduledAt - now], returns that id, and leaves the queue created. *)
Theorem addEmailJob_distributed_enqueues id scheduledAt a :
  redis_enabled a = true -> queue_available a ->
  (now (scheduler a) < scheduledAt)%Z ->
  queue_answers 1 (redis a) ->
  queue_jobs (redis a) !! id = None ->
  let r := addEmailJob id scheduledAt a in
  r.2 = Ok id /\ emailQueue r.1 = true
  /\ queue_jobs (redis r.1)
     = <[id := mkQJob "send-email" id (scheduledAt - now (scheduler a)) delayed]>
         (queue_jobs (redis a)).
Proof.
  intros Hon Hq Hlt Hans Hfresh r. subst r.
  rewrite addEmailJob_distributed_run by done.
  destruct a as [en q s [c js fs] w cs]; simpl in *.
  unfold queue_add, redis_call, queue_answers, bind, gets, modify, ret in *; simpl in *.
  destruct fs as [|[m|] fs]; simpl in *; rewrite ?Hfresh; simpl; try done.
  inversion Hans; discriminate.
Qed.

Lemma addEmailJob_distributed_enqueues_witness :
  (addEmailJob "B" 7000 ex_app_restarted).2 = Ok "B"
  /\ emailQueue (addEmailJob "B" 7000 ex_app_restarted).1 = true.
Proof.
  assert (queue_available ex_app_restarted) as Hq by (right; reflexivity).
  assert (now (scheduler ex_app_restarted) < 7000)%Z as Hlt by reflexivity.
  assert (queue_answers 1 (redis ex_app_restarted)) as Hans by constructor.
  assert (queue_jobs (redis ex_app_restarted) !! "B" = None) as Hfresh
    by (vm_compute; reflexivity).
  destruct (addEmailJob_distributed_enqueues "B" 7000 ex_app_restarted
              eq_refl Hq Hlt Hans Hfresh) as (H1 & H2 & _).
  exact (conj H1 H2).
Defined.

(** X20.  The custom rule of the validator and the facade draw the same
    line: at one instant, [addEmailJob] rejects a time as not in the future
    exactly when the rule of email.validator.js rejects it, in either mode
    (in distributed mode once the queue can be had).  A time that passed the
    validator is therefore refused by the facade only when the clock has
    reached it in between. *)
Theorem validator_and_facade_agree id v a :
  redis_enabled a = false \/ queue_available a ->
  (scheduledAt_rule (now (scheduler a)) v = inl v
   <-> (addEmailJob id v a).2 <> Throw InvalidScheduleTime)
  /\ (forall earlier, (earlier <= now (scheduler a))%Z ->
        (addEmailJob id v a).2 <> Throw InvalidScheduleTime ->
        scheduledAt_rule earlier v = inl v).
Proof.
  intros Hmode.
  assert ((v <= now (scheduler a))%Z
          <-> (addEmailJob id v a).2 = Throw InvalidScheduleTime) as Hiff.
  { destruct (redis_enabled a) eqn:Hen.
    - destruct Hmode as [?|Hq]; [done|]. split.
      + intros Hle. by rewrite addEmailJob_distributed_rejected.
      + intros Hthrow. destruct (Z.le_gt_cases v (now (scheduler a))) as [|Hgt]; [done|].
        exfalso. revert Hthrow.
        rewrite addEmailJob_distributed_run by done.
        destruct a as [en q s [c js fs] w cs]; simpl in *.
        unfold queue_add, redis_call, bind, gets, modify, ret; simpl.
        destruct fs as [|[m|] fs]; simpl; try destruct (js !! id); simpl; done.
    - destruct a as [en q s rd w cs]; simpl in *. subst en.
      unfold addEmailJob, enter, rethrow, try_catch, bind, modify, gets, on_scheduler,
        zoom, schedule, cancel, try_catch, bind, gets, modify, ret, throw; simpl.
      destruct (jobs s !! id); simpl;
        destruct (Z.leb_spec (v - now s) 0); simpl; split; intros; try done; lia. }
  unfold scheduledAt_rule. split.
  - destruct (Z.leb_spec v (now (scheduler a))) as [Hle|Hgt]; split; try done.
    + intros Hno. exfalso. apply Hno, Hiff, Hle.
    + intros _ Hthrow. apply Hiff in Hthrow. lia.
  - intros earlier Hearlier Hno.
    destruct (Z.leb_spec v earlier) as [Hle|Hgt]; [|done].
    exfalso. apply Hno, Hiff. lia.
Qed.

Lemma validator_and_facade_agree_witness :
  scheduledAt_rule 1000 500 <> inl 500%Z
  /\ (addEmailJob "B" 500 ex_app_in_memory).2 = Throw InvalidScheduleTime.
Proof.
  destruct (validator_and_facade_agree "B" 500 ex_app_in_memory (or_introl eq_refl))
    as [[_ H] _].
  split; [discriminate|].
  destruct ((addEmailJob "B" 500 ex_app_in_memory).2) as [x|e] eqn:E.
  - exfalso. assert (scheduledAt_rule (now (scheduler ex_app_in_memory)) 500 = inl 500%Z)
      as Habs by (apply H; discriminate).
    vm_compute in Habs. discriminate.
  - vm_compute in E. injection E as <-. reflexivity.
Defined.

(* ===================================================================== *)
(** ** Listings (email.service.js, getAllEmails and getFailedEmails) *)
(* ===================================================================== *)

Section Listings.

Variable newest_first : gmap string Email -> list (string * Email).
Variable where_ : Email -> bool.

Lemma listEmails_run page limit w :
  (1 <= page)%Z -> (1 <= limit)%Z -> answers 1 w ->
  listEmails newest_first where_ page limit w
  = (after_call w,
     Ok (take (Z.to_nat (Z.min limit MAX_LIMIT))
              (drop (Z.to_nat ((page - 1) * limit)) (matching newest_first where_ w)),
         mkPagination page (Z.min limit MAX_LIMIT) (Z.of_nat (length (matching newest_first where_ w)))
                      (ceil_div (Z.of_nat (length (matching newest_first where_ w)))
                                (Z.min limit MAX_LIMIT)))).
Proof.
  intros Hp Hl Hans. destruct (db_call_answers 0 w Hans) as [Hcall _].
  unfold listEmails, findAndCountAll, rethrow, try_catch, bind. rewrite Hcall.
  assert (((Z.min limit MAX_LIMIT <? 0) || ((page - 1) * limit <? 0))%Z = false) as ->.
  { unfold MAX_LIMIT. apply orb_false_intro; apply Z.ltb_ge; [lia|nia]. }
  done.
Qed.

Lemma ceil_div_bounds a b :
  (0 < b)%Z ->
  exists n, ceil_div a b = Some n /\ ((n - 1) * b < a <= n * b)%Z.
Proof.
  intros Hb. unfold ceil_div.
  destruct (Z.eqb_spec b 0) as [->|_]; [lia|].
  exists (- (- a / b))%Z. split; [done|].
  pose proof (Z.div_mod (- a) b ltac:(lia)) as Hdm.
  pose proof (Z.mod_pos_bound (- a) b Hb) as Hm.
  nia.
Qed.

Lemma matching_spec w r :
  r ∈ matching newest_first where_ w <-> r ∈ newest_first (emails w) /\ where_ r.2 = true.
Proof.
  unfold matching. rewrite !list_elem_of_In, List.filter_In. done.
Qed.

End Listings.

(** X21.  A listing for a page and a limit of at least 1, on a store that
    answers: the service returns at most min(limit, 100) rows, all of them
    rows of the table that satisfy the filter; it reports the page asked
    for, the limit min(limit, 100), as total the number of all rows that
    satisfy the filter, and as totalPages the least number of pages of that
    limit that hold them; the table is left as it was. *)
Theorem listEmails_page_bounds newest_first where_ page limit w :
  (1 <= page)%Z -> (1 <= limit)%Z -> answers 1 w ->
  exists rows pg n,
    (listEmails newest_first where_ page limit w).2 = Ok (rows, pg)
    /\ emails (listEmails newest_first where_ page limit w).1 = emails w
    /\ pg_page pg = page /\ pg_limit pg = Z.min limit MAX_LIMIT
    /\ (Z.of_nat (length rows) <= pg_limit pg)%Z
    /\ (forall r, r ∈ rows -> r ∈ newest_first (emails w) /\ where_ r.2 = true)
    /\ pg_total pg = Z.of_nat (length (matching newest_first where_ w))
    /\ pg_totalPages pg = Some n
    /\ ((n - 1) * pg_limit pg < pg_total pg <= n * pg_limit pg)%Z.
Proof.
  intros Hp Hl Hans. rewrite listEmails_run by done.
  destruct (ceil_div_bounds (Z.of_nat (length (matching newest_first where_ w)))
              (Z.min limit MAX_LIMIT)) as (n & Hn & Hbounds);
    [unfold MAX_LIMIT; lia|].
  eexists _, _, n. split; [reflexivity|]. simpl.
  split; [done|]. split; [done|]. split; [done|].
  split; [|split; [|by repeat split; try lia]].
  - rewrite length_take. unfold MAX_LIMIT. lia.
  - intros r Hr. apply (matching_spec newest_first where_ w).
    apply list_elem_of_lookup in Hr as [k Hk].
    apply lookup_take_Some in Hk as [Hk _]. rewrite lookup_drop in Hk.
    by eapply list_elem_of_lookup_2.
Qed.

Lemma listEmails_page_bounds_witness :
  exists rows pg,
    (getAllEmails ex_newest_first 1 10 (ex_world PENDING [] [])).2 = Ok (rows, pg)
    /\ pg_limit pg = 10%Z.
Proof.
  assert (answers 1 (ex_world PENDING [] [])) as Hans by (apply answers_nil; reflexivity).
  destruct (listEmails_page_bounds ex_newest_first (fun _ => true) 1 10
              (ex_world PENDING [] []) ltac:(lia) ltac:(lia) Hans)
    as (rows & pg & n & Hrun & _ & _ & Hlimit & _).
  exists rows, pg. split; [exact Hrun|exact Hlimit].
Defined.

Section ListingRows.

Variable newest_first : gmap string Email -> list (string * Email).
Hypothesis newest_first_enumerates : forall m, newest_first m ≡ₚ map_to_list m.

Lemma take_drop_subseteq {A} n k (l : list A) x : x ∈ take n (drop k l) -> x ∈ l.
Proof.
  intros Hx. apply list_elem_of_lookup in Hx as [j Hj].
  apply lookup_take_Some in Hj as [Hj _]. rewrite lookup_drop in Hj.
  by eapply list_elem_of_lookup_2.
Qed.

Lemma matching_row where_ w r :
  r ∈ matching newest_first where_ w ->
  emails w !! r.1 = Some r.2 /\ where_ r.2 = true.
Proof.
  intros Hr. apply matching_spec in Hr as [Hr Hw]. split; [|done].
  rewrite (newest_first_enumerates (emails w)) in Hr.
  destruct r as [id e]. by apply elem_of_map_to_list.
Qed.

Lemma matching_all w :
  length (matching newest_first (fun _ => true) w) = size (emails w).
Proof.
  unfold matching. rewrite List.forallb_filter_id.
  - by rewrite (newest_first_enumerates (emails w)), length_map_to_list.
  - by apply List.forallb_forall.
Qed.

Lemma matching_length where_ w :
  (length (matching newest_first where_ w) <= size (emails w))%nat.
Proof.
  rewrite <- matching_all. unfold matching at 2.
  rewrite List.forallb_filter_id by by apply List.forallb_forall.
  apply List.filter_length_le.
Qed.

End ListingRows.

(** X22.  When the enumeration lists every row of the table once:
    [getAllEmails] reports the size of the table as total and returns only
    rows of the table; [getFailedEmails] returns only rows of the table
    whose status is FAILED, and its total is never above that of
    [getAllEmails]. *)
Theorem getAllEmails_and_getFailedEmails_rows newest_first page limit w :
  (forall m, newest_first m ≡ₚ map_to_list m) ->
  (1 <= page)%Z -> (1 <= limit)%Z -> answers 1 w ->
  exists all pg failed pg',
    (getAllEmails newest_first page limit w).2 = Ok (all, pg)
    /\ (getFailedEmails newest_first page limit w).2 = Ok (failed, pg')
    /\ pg_total pg = Z.of_nat (size (emails w))
    /\ (pg_total pg' <= pg_total pg)%Z
    /\ (forall r, r ∈ all -> emails w !! r.1 = Some r.2)
    /\ (forall r, r ∈ failed -> emails w !! r.1 = Some r.2 /\ status r.2 = FAILED).
Proof.
  intros Hnf Hp Hl Hans. unfold getAllEmails, getFailedEmails.
  rewrite !listEmails_run by done.
  eexists _, _, _, _. split; [reflexivity|]. split; [reflexivity|]. simpl.
  rewrite matching_all by done. split; [done|]. split; [|split].
  - apply inj_le. by apply matching_length.
  - intros r Hr. apply take_drop_subseteq in Hr.
    by apply (matching_row newest_first Hnf) in Hr as [Hr _].
  - intros r Hr. apply take_drop_subseteq in Hr.
    apply (matching_row newest_first Hnf) in Hr as [Hr Hst]. split; [done|].
    simpl in Hst. by destruct (status r.2).
Qed.

Lemma getAllEmails_and_getFailedEmails_rows_witness :
  exists all pg,
    (getAllEmails ex_newest_first 1 10 (ex_world FAILED [] [])).2 = Ok (all, pg)
    /\ pg_total pg = 1%Z.
Proof.
  assert (answers 1 (ex_world FAILED [] [])) as Hans by (apply answers_nil; reflexivity).
  destruct (getAllEmails_and_getFailedEmails_rows ex_newest_first 1 10
              (ex_world FAILED [] []) (fun m => reflexivity _)
              ltac:(lia) ltac:(lia) Hans)
    as (all & pg & _ & _ & Hrun & _ & Htotal & _).
  exists all, pg. split; [exact Hrun|]. rewrite Htotal. reflexivity.
Defined.

(** X23.  With a limit between 1 and 100 the pages cover the listing: the
    row at position [i] of the rows that satisfy the filter is returned on
    page [i / limit + 1], at position [i mod limit]. *)
Theorem listEmails_pages_cover newest_first where_ limit w i r :
  (1 <= limit <= MAX_LIMIT)%Z -> answers 1 w ->
  matching newest_first where_ w !! i = Some r ->
  exists rows pg,
    (listEmails newest_first where_ (Z.of_nat i / limit + 1) limit w).2 = Ok (rows, pg)
    /\ rows !! Z.to_nat (Z.of_nat i mod limit) = Some r.
Proof.
  intros [Hl Hmax] Hans Hi.
  pose proof (Z.div_pos (Z.of_nat i) limit ltac:(lia) ltac:(lia)) as Hq.
  pose proof (Z.mod_pos_bound (Z.of_nat i) limit ltac:(lia)) as Hm.
  pose proof (Z.div_mod (Z.of_nat i) limit ltac:(lia)) as Hdm.
  rewrite listEmails_run by (done || lia).
  eexists _, _. split; [reflexivity|].
  apply lookup_take_Some. split.
  - rewrite lookup_drop.
    replace (Z.to_nat ((Z.of_nat i / limit + 1 - 1) * limit)
             + Z.to_nat (Z.of_nat i mod limit))%nat with i; [done|].
    rewrite <- Z2Nat.inj_add by nia.
    replace ((Z.of_nat i / limit + 1 - 1) * limit + Z.of_nat i mod limit)%Z
      with (Z.of_nat i) by lia.
    by rewrite Nat2Z.id.
  - rewrite Z.min_l by done. lia.
Qed.

Lemma listEmails_pages_cover_witness :
  exists rows pg,
    (getAllEmails ex_newest_first 1 10 (ex_world PENDING [] [])).2 = Ok (rows, pg)
    /\ rows !! 0%nat = Some ("A", ex_email PENDING).
Proof.
  assert (answers 1 (ex_world PENDING [] [])) as Hans by (apply answers_nil; reflexivity).
  assert (matching ex_newest_first (fun _ => true) (ex_world PENDING [] []) !! 0%nat
          = Some ("A", ex_email PENDING)) as Hrow by (vm_compute; reflexivity).
  destruct (listEmails_pages_cover ex_newest_first (fun _ => true) 10
              (ex_world PENDING [] []) 0 ("A", ex_email PENDING)
              ltac:(unfold MAX_LIMIT; lia) Hans Hrow)
    as (rows & pg & Hrun & Hat).
  exists rows, pg. split; [exact Hrun|exact Hat].
Defined.

(** X24.  With a limit above 100 the pages do not cover the listing: the
    offset of a page is computed from the limit asked for, the number of
    rows from the limit capped at 100.  When the enumeration lists each id
    once, a row at a position [i] with [i mod limit >= 100] is returned on
    no page. *)
Theorem listEmails_over_max_limit_skips_rows newest_first where_ limit w i r :
  (MAX_LIMIT < limit)%Z -> answers 1 w ->
  NoDup (newest_first (emails w)).*1 ->
  matching newest_first where_ w !! i = Some r ->
  (MAX_LIMIT <= Z.of_nat i mod limit)%Z ->
  forall page, (1 <= page)%Z ->
    exists rows pg,
      (listEmails newest_first where_ page limit w).2 = Ok (rows, pg)
      /\ r ∉ rows.
Proof.
  unfold MAX_LIMIT. intros Hl Hans Hids Hi Hmod page Hp.
  rewrite listEmails_run by (done || lia).
  eexists _, _. split; [reflexivity|]. intros Hr.
  apply list_elem_of_lookup in Hr as [k Hk].
  apply lookup_take_Some in Hk as [Hk Hlt]. rewrite lookup_drop in Hk.
  assert (NoDup (matching newest_first where_ w)) as Hnd.
  { unfold matching. apply NoDup_ListNoDup, List.NoDup_filter, NoDup_ListNoDup.
    by eapply NoDup_fmap_1. }
  pose proof (NoDup_lookup _ _ _ _ Hnd Hk Hi) as Heq.
  unfold MAX_LIMIT in Hlt. rewrite Z.min_r in Hlt by lia.
  assert (Z.of_nat k = Z.of_nat i mod limit)%Z as Hk'; [|lia].
  apply (Z.mod_unique_pos _ _ (page - 1)); [lia|].
  rewrite <- Heq, Nat2Z.inj_add, Z2Nat.id by nia. lia.
Qed.

Lemma listEmails_over_max_limit_skips_rows_witness :
  exists r rows pg,
    matching ex_newest_first (fun _ => true) ex_big_world !! 110%nat = Some r
    /\ (getAllEmails ex_newest_first 1 120 ex_big_world).2 = Ok (rows, pg)
    /\ r ∉ rows.
Proof.
  assert (answers 1 ex_big_world) as Hans by (apply answers_nil; reflexivity).
  assert (NoDup (ex_newest_first (emails ex_big_world)).*1) as Hids
    by apply NoDup_fst_map_to_list.
  destruct (matching ex_newest_first (fun _ => true) ex_big_world !! 110%nat)
    as [r|] eqn:Hrow; [|vm_compute in Hrow; discriminate].
  destruct (listEmails_over_max_limit_skips_rows ex_newest_first (fun _ => true) 120
              ex_big_world 110 r ltac:(unfold MAX_LIMIT; lia) Hans Hids Hrow
              ltac:(vm_compute; discriminate) 1 ltac:(lia))
    as (rows & pg & Hrun & Hnot).
  exists r, rows, pg. split; [reflexivity|]. split; [exact Hrun|exact Hnot].
Defined.

(* ===================================================================== *)
(** ** Replies of the HTTP layer (email.controller.js, error.middleware.js) *)
(* ===================================================================== *)

Section Replies.

Lemma createEmail_add_throws id emailData a e :
  emails (world a) !! id = None -> answers 1 (world a) ->
  (addEmailJob id (new_scheduledAt emailData)
     (set_world (set_emails (<[id := new_email emailData]>) (after_call (world a))) a)).2
  = Throw e ->
  (createEmail id emailData a).2 = Throw e.
Proof.
  intros Hfree Hans Hadd.
  destruct (create_answers 0 id emailData (world a) Hans Hfree) as [Hcreate _].
  unfold createEmail, rethrow, try_catch, bind at 1.
  rewrite on_world_run, Hcreate. simpl. unfold bind at 1.
  destruct (addEmailJob id (new_scheduledAt emailData) _) as [a2 [j|e']];
    simpl in *; [discriminate|]. by injection Hadd as ->.
Qed.

Lemma addEmailJob_rejected_connection id scheduledAt a code msg :
  redis_enabled a = true -> emailQueue a = false ->
  conn (redis a) = ConnRejects code msg ->
  (addEmailJob id scheduledAt a).2
  = Throw (RedisConnectionFailed
             (if bool_decide (code = Some "ECONNREFUSED")
              then message RedisNotRunning else msg)).
Proof.
  destruct a as [en q s [c js fs] w cs]; simpl. intros -> -> ->.
  unfold addEmailJob, enter, rethrow, try_catch, bind, modify,
    gets, getEmailQueue, on_redis, zoom, getRedisClient, try_catch, bind, gets,
    modify, ret, throw; simpl.
  by destruct (bool_decide (code = Some "ECONNREFUSED")).
Qed.

End Replies.

(** X25.  What the client is told when a request fails, on a store that
    answers the first call.  A request for an id that is not in the table
    is answered 404 "Email not found" by the get, update and delete
    endpoints; an update of an email that was sent is answered 400.  A
    create whose time is not in the future when the facade looks at it, and
    a create while the client's [connect()] rejects (whatever the
    rejection), are both answered 500, with the message of the error:
    these errors are built by [new Error(...)] and carry no status code of
    their own. *)
Theorem api_error_replies id emailData updateData a :
  answers 1 (world a) ->
  (emails (world a) !! id = None ->
     http_response (getEmailById_controller id (world a)).2
     = Some (404%nat, "Email not found")
     /\ http_response (updateEmail_controller id updateData a).2
        = Some (404%nat, "Email not found")
     /\ http_response (deleteEmail_controller id a).2
        = Some (404%nat, "Email not found"))
  /\ (forall e, emails (world a) !! id = Some e -> status e = SENT ->
        http_response (updateEmail_controller id updateData a).2
        = Some (400%nat, "Cannot update email that has already been sent"))
  /\ (emails (world a) !! id = None ->
      (new_scheduledAt emailData <= now (scheduler a))%Z ->
      redis_enabled a = false \/ queue_available a ->
      http_response (createEmail_controller id emailData a).2
      = Some (500%nat, "Scheduled time must be in the future"))
  /\ (forall code msg,
      emails (world a) !! id = None ->
      redis_enabled a = true -> emailQueue a = false ->
      conn (redis a) = ConnRejects code msg ->
      http_response (createEmail_controller id emailData a).2
      = Some (500%nat,
              ("Redis connection failed: "
               ++ (if bool_decide (code = Some "ECONNREFUSED")
                   then message RedisNotRunning else msg)
               ++ ". Please ensure Redis is running or set REDIS_ENABLED=false in .env")
              %string)).
Proof.
  intros Hans. destruct (findByPk_answers 0 id (world a) Hans) as [Hload _].
  split; [|split; [|split]].
  - intros Hnone.
    unfold getEmailById_controller, updateEmail_controller, deleteEmail_controller,
      controller.
    rewrite (getEmailById_missing 0) by done.
    assert (updateEmail id updateData a
            = (set_world (after_call (world a)) a, Throw EmailNotFound)) as ->.
    { unfold updateEmail, rethrow, try_catch, bind.
      by rewrite on_world_run, Hload, Hnone. }
    assert (deleteEmail id a
            = (set_world (after_call (world a)) a, Throw EmailNotFound)) as ->.
    { unfold deleteEmail, rethrow, try_catch, bind.
      by rewrite on_world_run, Hload, Hnone. }
    done.
  - intros e He Hsent. unfold updateEmail_controller, controller.
    assert (updateEmail id updateData a
            = (set_world (after_call (world a)) a, Throw EmailAlreadySent)) as ->.
    { unfold updateEmail, rethrow, try_catch, bind.
      rewrite on_world_run, Hload, He. simpl. by rewrite Hsent. }
    done.
  - intros Hfree Hle Hmode. unfold createEmail_controller, controller.
    assert ((createEmail id emailData a).2 = Throw InvalidScheduleTime) as Hrun.
    { apply createEmail_add_throws; [done|done|].
      by apply addEmailJob_rejected. }
    destruct (createEmail id emailData a) as [a' [x|e]]; simpl in Hrun; [done|].
    by injection Hrun as ->.
  - intros code msg Hfree Hon Hq Hconn. unfold createEmail_controller, controller.
    assert ((createEmail id emailData a).2
            = Throw (RedisConnectionFailed
                       (if bool_decide (code = Some "ECONNREFUSED")
                        then message RedisNotRunning else msg))) as Hrun.
    { apply createEmail_add_throws; [done|done|].
      by apply addEmailJob_rejected_connection. }
    destruct (createEmail id emailData a) as [a' [x|e]]; simpl in Hrun; [done|].
    injection Hrun as ->. simpl.
    by destruct (bool_decide (code = Some "ECONNREFUSED")).
Qed.

Lemma api_error_replies_witness :
  http_response (deleteEmail_controller "Z" ex_app_in_memory).2
  = Some (404%nat, "Email not found")
  /\ http_response (createEmail_controller "B" (ex_email_data 500) ex_app_redis_down).2
     = Some (500%nat,
             "Redis connection failed: Connection is closed.. Please ensure Redis is running or set REDIS_ENABLED=false in .env").
Proof.
  split.
  - assert (answers 1 (world ex_app_in_memory)) as Hans
      by (apply answers_nil; reflexivity).
    destruct (api_error_replies "Z" (ex_email_data 500) ex_update ex_app_in_memory Hans)
      as [Hmissing _].
    exact (proj2 (proj2 (Hmissing eq_refl))).
  - assert (answers 1 (world ex_app_redis_down)) as Hans
      by (apply answers_nil; reflexivity).
    destruct (api_error_replies "B" (ex_email_data 500) ex_update ex_app_redis_down Hans)
      as (_ & _ & _ & Hdown).
    exact (Hdown None "Connection is closed." eq_refl eq_refl eq_refl eq_refl).
Defined.

(* ===================================================================== *)
(** ** An update in distributed mode before the queue was created *)
(* ===================================================================== *)

Section UpdateAfterRestart.

Lemma removeEmailJob_no_queue jid a :
  redis_enabled a = true -> emailQueue a = false ->
  removeEmailJob jid a = (record_call (CallRemoveEmailJob jid) a, Ok tt).
Proof.
  destruct a as [en q s rd w cs]; simpl. intros -> ->. done.
Qed.

Lemma queue_add_existing name emailId delay jid rd job :
  queue_answers 1 rd -> queue_jobs rd !! jid = Some job ->
  (queue_add name emailId delay jid rd).2 = Ok jid
  /\ queue_jobs (queue_add name emailId delay jid rd).1 = queue_jobs rd.
Proof.
  destruct rd as [c js fs]; unfold queue_answers; simpl. intros Hans Hjob.
  unfold queue_add, redis_call, bind, gets, modify, ret; simpl.
  destruct fs as [|[m|] fs]; simpl; rewrite ?Hjob; try done.
  inversion Hans; discriminate.
Qed.

End UpdateAfterRestart.

(** X26.  Distributed mode, in a process that has not created its queue
    yet (after a restart, say), with a server that accepts the connection:
    an update that carries a new time, of an email whose job is still in
    the queue.  [removeEmailJob] asks the backend nothing, [addEmailJob]
    creates the queue and adds under the same id, which the queue ignores
    for an id it holds.  The update succeeds and the row carries the new
    time, while the job in the queue is the old one, with the old delay. *)
Theorem updateEmail_before_queue_exists_keeps_old_job id updateData a email newTime job :
  redis_enabled a = true -> emailQueue a = false -> conn (redis a) = ConnReady ->
  answers 2 (world a) -> queue_answers 1 (redis a) ->
  emails (world a) !! id = Some email -> status email <> SENT ->
  jobId email = Some id -> id <> "" ->
  upd_scheduledAt updateData = Some newTime ->
  (now (scheduler a) < newTime)%Z ->
  queue_jobs (redis a) !! id = Some job ->
  let r := updateEmail id updateData a in
  (exists updated, r.2 = Ok updated /\ scheduledAt updated = newTime
                   /\ emails (world r.1) !! id = Some updated)
  /\ queue_jobs (redis r.1) = queue_jobs (redis a)
  /\ emailQueue r.1 = true.
Proof.
  intros Hon Hq Hconn Hans Hqans Hemail Hst Hjid Hne Hupd Hlt Hjob r. subst r.
  pose proof (answers_weaken 2 1 (world a) ltac:(lia) Hans) as Hans1.
  destruct (findByPk_answers 1 id (world a) Hans) as [_ Hans'].
  rewrite (updateEmail_run id updateData a email newTime) by done.
  assert (truthy (jobId email) = true) as ->.
  { rewrite Hjid. simpl. by destruct (String.eqb_spec id ""). }
  rewrite Hjid. simpl default.
  rewrite removeEmailJob_no_queue by done. simpl fst.
  rewrite addEmailJob_distributed_run; [|done|by right|done].
  simpl.
  destruct (queue_add_existing "send-email" id (newTime - now (scheduler a)) id
              (redis a) job Hqans Hjob) as [Hret Hjobs].
  destruct (queue_add "send-email" id (newTime - now (scheduler a)) id (redis a))
    as [rd' [x|e]]; simpl in Hret, Hjobs; [|discriminate].
  injection Hret as ->.
  simpl. rewrite on_world_run. simpl.
  destruct (update_answers 0 id (apply_update (set_upd_jobId id updateData))
              (after_call (world a)) Hans') as [-> _].
  simpl. split; [|done].
  eexists. split; [reflexivity|]. split.
  - simpl. by rewrite Hupd.
  - rewrite lookup_alter, Hemail. by destruct (decide (id = id)).
Qed.

Lemma updateEmail_before_queue_exists_keeps_old_job_witness :
  queue_jobs (redis (updateEmail "A" ex_update ex_app_restarted).1) !! "A"
  = Some (ex_queue_job 4000 delayed)
  /\ emailQueue (updateEmail "A" ex_update ex_app_restarted).1 = true.
Proof.
  assert (answers 2 (world ex_app_restarted)) as Hans
    by (apply answers_nil; reflexivity).
  assert (queue_answers 1 (redis ex_app_restarted)) as Hqans by constructor.
  destruct (updateEmail_before_queue_exists_keeps_old_job "A" ex_update ex_app_restarted
              (ex_email PENDING) 90000 (ex_queue_job 4000 delayed)
              eq_refl eq_refl eq_refl Hans Hqans eq_refl
              ltac:(discriminate) eq_refl ltac:(discriminate) eq_refl
              ltac:(reflexivity) eq_refl)
    as (_ & Hjobs & Hqueue).
  split; [|exact Hqueue]. rewrite Hjobs. reflexivity.
Defined.
